(** * Sentiment tracker: the filter / classify / aggregate pipeline of twitter.py

    A shallow embedding of the Streamlit script [twitter.py] and the
    properties of its pipeline.

    Modelling conventions.
    - Texts are ASCII strings ([string]); code points above 127 (the emoji of
      the demo corpus, non-ASCII case pairs, Unicode blanks) are outside the
      model.
    - A Python [float] that is neither NaN nor infinite denotes a rational
      number; [<], [>] and unary minus are exact on them, so polarities and
      thresholds are values of [Q] compared with [Qlt].  Sums and means are
      the exact rational ones: the rounding of binary64 arithmetic is not
      modelled.
    - Timestamps are integers (ticks of the clock), [pd.to_datetime] is the
      identity on them.
    - A pandas DataFrame is the list of its rows, each row carrying its index
      label. DataFrame objects live in a store addressed by references, and
      [st.session_state] holds two such references.
    - Python's [re] is a parameter of the script ([Engine]): what it does is
      fixed on the patterns made of ordinary characters and dots ([Re]) and
      on patterns with a group left open, which raise; every other keyword
      compiles or raises as the engine at hand decides.  [None] is a Python
      exception throughout. *)

From Stdlib Require Import ZArith QArith Lqa Ascii String.
From stdpp Require Import base list gmap strings sorting.

Close Scope Q_scope.
Open Scope string_scope.
Open Scope list_scope.
Open Scope stdpp_scope.

(** ** Python [str] operations used by the script *)
Module Text.

(** [str.lower] on one ASCII character. *)
Definition lower_char (c : ascii) : ascii :=
  let n := nat_of_ascii c in
  if ((65 <=? n) && (n <=? 90))%nat then ascii_of_nat (n + 32) else c.

Fixpoint lower (s : string) : string :=
  match s with
  | EmptyString => EmptyString
  | String c s' => String (lower_char c) (lower s')
  end.

(** [str.isspace] on one ASCII character: TAB, LF, VT, FF, CR, the four
    separators FS, GS, RS, US, and the blank. *)
Definition isspace (c : ascii) : bool :=
  let n := nat_of_ascii c in
  (((9 <=? n) && (n <=? 13)) || ((28 <=? n) && (n <=? 31)) || (n =? 32))%nat.

(** [w.startswith(p)]. *)
Fixpoint startswith (p w : string) : bool :=
  match p, w with
  | EmptyString, _ => true
  | String a p', String b w' => Ascii.eqb a b && startswith p' w'
  | String _ _, EmptyString => false
  end.

(** [t.split()]: the maximal runs of non-blank characters, left to right.
    [cur] is the run being read. *)
Fixpoint split_go (cur : string) (s : string) : list string :=
  match s with
  | EmptyString => if String.eqb cur EmptyString then [] else [cur]
  | String c s' =>
      if isspace c
      then (if String.eqb cur EmptyString then split_go EmptyString s'
            else cur :: split_go EmptyString s')
      else split_go (cur +:+ String c EmptyString) s'
  end.

Definition split (s : string) : list string := split_go EmptyString s.

(** The truth value of a [str]: false exactly for the empty string. *)
Definition truthy (s : string) : bool := negb (String.eqb s EmptyString).

(** [w] begins with [p]. *)
Definition begins_with (p w : string) : Prop :=
  ∃ rest, w = p +:+ rest.

(** [k] occurs in [t]. *)
Definition substring (k t : string) : Prop :=
  ∃ pre post, t = pre +:+ k +:+ post.

(** [k] occurs in [t] when letter case is ignored. *)
Definition ci_substring (k t : string) : Prop :=
  substring (lower k) (lower t).

(** Every character of [s] is a blank. *)
Definition blank (s : string) : Prop :=
  Forall (λ c, isspace c = true) (list_ascii_of_string s).

(** [s] is a word: not empty, and without a blank in it. *)
Definition solid (s : string) : Prop :=
  s ≠ EmptyString ∧ Forall (λ c, isspace c = false) (list_ascii_of_string s).

(** [tokenized s ws]: [ws] are the words of [s], in order, each set off from
    the next by at least one blank, with nothing dropped from or added to
    them. *)
Inductive tokenized : string → list string → Prop :=
| tokenized_blank g :
    blank g → tokenized g []
| tokenized_last g w :
    blank g → solid w → tokenized (g +:+ w) [w]
| tokenized_more g w c rest ws :
    blank g → solid w → isspace c = true → tokenized rest ws →
    tokenized (g +:+ w +:+ String c rest) (w :: ws).

End Text.

(** ** A fragment of Python's [re]

    [Series.str.contains(pat, case=False)] leaves [regex] at its default
    [True]: pandas compiles [pat] with [re.compile(pat, re.IGNORECASE)] and
    keeps the rows where [search] finds a match.  [Re] spells out what that
    means for the patterns made of ordinary characters and the wildcard dot.
    [Re.compile] is [None] on every other pattern: such a pattern is not in
    the fragment, and what Python does with it is left to the engine
    below. *)
Module Re.

Inductive atom : Type :=
| Lit (c : ascii)      (* an ordinary character *)
| AnyChar.             (* the dot: any character except a newline *)

(** The special characters of the pattern language. *)
Definition special (c : ascii) : bool :=
  bool_decide (c ∈ list_ascii_of_string ".^$*+?{}[]\|()").

Fixpoint compile (pat : string) : option (list atom) :=
  match pat with
  | EmptyString => Some []
  | String c rest =>
      if Ascii.eqb c "."
      then cons AnyChar <$> compile rest
      else if special c then None
           else cons (Lit c) <$> compile rest
  end.

(** One atom against one character, under [re.IGNORECASE]. *)
Definition atom_matches (a : atom) (c : ascii) : bool :=
  match a with
  | Lit x => Ascii.eqb (Text.lower_char x) (Text.lower_char c)
  | AnyChar => negb (Ascii.eqb c "010")
  end.

(** The pattern matches at the start of [s]. *)
Fixpoint match_here (p : list atom) (s : string) : bool :=
  match p, s with
  | [], _ => true
  | a :: p', String c s' => atom_matches a c && match_here p' s'
  | _ :: _, EmptyString => false
  end.

(** [pattern.search(s) is not None]: the pattern matches at some offset. *)
Fixpoint search (p : list atom) (s : string) : bool :=
  match_here p s ||
  match s with
  | EmptyString => false
  | String _ s' => search p s'
  end.

(** A keyword without special characters. *)
Definition plain (k : string) : Prop :=
  Forall (λ c, special c = false) (list_ascii_of_string k).

(** Alternation over the fragment: [a|b] is found where [a] or [b] is.
    [alternatives] cuts a pattern at its bars; [cur] is the alternative
    being read. *)
Fixpoint alternatives_go (cur : string) (pat : string) : list string :=
  match pat with
  | EmptyString => [cur]
  | String c rest =>
      if Ascii.eqb c "|"
      then cur :: alternatives_go EmptyString rest
      else alternatives_go (cur +:+ String c EmptyString) rest
  end.

Definition alternatives (pat : string) : list string :=
  alternatives_go EmptyString pat.

Definition compile_alt (pat : string) : option (list (list atom)) :=
  mapM compile (alternatives pat).

Definition search_alt (q : list (list atom)) (s : string) : bool :=
  existsb (λ p, search p s) q.

(** A pattern that opens a group and cannot close it: it has a left
    parenthesis, and no right parenthesis, no backslash (092) and no left
    bracket that could make the parenthesis an ordinary character. *)
Definition unclosed (pat : string) : Prop :=
  "("%char ∈ list_ascii_of_string pat ∧
  Forall (λ c, c ∉ [")"; "092"; "["]%char) (list_ascii_of_string pat).

End Re.

(** ** The regular-expression engine

    [re_compile pat] stands for [re.compile(pat, re.IGNORECASE)]: [None] where
    Python raises [re.error], a compiled pattern otherwise; [re_search q s]
    stands for [q.search(s) is not None].  The script is modelled over any
    engine.  Two things are taken for granted of it: the patterns of the
    fragment compile and match as [Re] says, and a pattern with a group left
    open is an error ("missing ), unterminated subpattern"). *)
Class Engine : Type := {
  compiled : Type;
  re_compile : string → option compiled;
  re_search : compiled → string → bool;
  re_fragment : ∀ pat p,
    Re.compile pat = Some p →
    ∃ q, re_compile pat = Some q ∧ ∀ s, re_search q s = Re.search p s;
  re_unclosed : ∀ pat, Re.unclosed pat → re_compile pat = None
}.

(** ** Sorting

    [sort_values] delegates to numpy's [argsort] with [kind='quicksort'], the
    default, which promises a sorted rearrangement and nothing about the
    order of equal keys.  [SortKind] is that promise; rows are compared
    through their key column by [le]. *)
Definition total_le {A} (le : A → A → bool) : Prop :=
  ∀ a b, le a b = true ∨ le b a = true.

Definition trans_le {A} (le : A → A → bool) : Prop :=
  ∀ a b c, le a b = true → le b c = true → le a c = true.

Class SortKind : Type := {
  sort_by : ∀ {A : Type}, (A → A → bool) → list A → list A;
  sort_by_perm : ∀ {A} (le : A → A → bool) l, sort_by le l ≡ₚ l;
  sort_by_sorted : ∀ {A} (le : A → A → bool) l,
    total_le le → trans_le le →
    StronglySorted (λ a b, le a b = true) (sort_by le l)
}.

(** Insertion sort, the stable kind: numpy's quicksort on short inputs, and
    the order Python's [sorted] keeps among equal keys. *)
Fixpoint insert_by {A} (le : A → A → bool) (x : A) (l : list A) : list A :=
  match l with
  | [] => [x]
  | y :: l' => if le x y then x :: l else y :: insert_by le x l'
  end.

Fixpoint insertion_sort {A} (le : A → A → bool) (l : list A) : list A :=
  match l with
  | [] => []
  | x :: l' => insert_by le x (insertion_sort le l')
  end.

(** The order a stable sort produces when its input is ordered by [pos]:
    by key, and by [pos] among equal keys. *)
Definition stable_rank {A} (le : A → A → bool) (pos : A → A → Prop) (a b : A) : Prop :=
  le a b = true ∧ (le b a = true → pos a b).

(** ** Rows and DataFrame operations *)

Inductive sentiment : Type := Positive | Negative | Neutral.

Global Instance sentiment_eq_dec : EqDecision sentiment.
Proof. solve_decision. Defined.

(** A row of [tweets_df]: its index label and the two columns. *)
Record tweet : Type := Tweet {
  idx : nat;
  created_at : Z;
  text : string
}.

(** A row after lines 95-96: the columns [Polarity], [Sentiment] and [Time]
    next to the original ones. *)
Record scored : Type := Scored {
  origin : tweet;
  Polarity : Q;
  Sentiment : sentiment;
  Time : Z
}.

Module Frame.

(** [df.head(n)]: the first [n] rows, or all but the last [-n] rows when
    [n] is negative. *)
Definition head {A} (n : Z) (rows : list A) : list A :=
  if (0 <=? n)%Z then take (Z.to_nat n) rows
  else take (length rows - Z.to_nat (- n)) rows.

(** [df[df['text'].str.contains(pat, case=False)]]: [None] when compiling
    the pattern raises [re.error]. *)
Definition text_contains `{Engine} (pat : string) (rows : list tweet)
  : option (list tweet) :=
  q ← re_compile pat;
  Some (filter (λ r, re_search q (text r)) rows).

(** [df.sort_values(col, ascending=...)]: for a descending sort pandas
    reverses the rows, sorts ascending and reverses the result. *)
Definition sort_values `{SortKind} {A} (le : A → A → bool) (ascending : bool)
    (rows : list A) : list A :=
  if ascending then sort_by le rows else reverse (sort_by le (reverse rows)).

(** [pd.concat(frames, ignore_index=True)]: the rows of all frames, labelled
    afresh from 0. *)
Definition concat_ignore_index (frames : list (list tweet)) : list tweet :=
  imap (λ i r, Tweet i (created_at r) (text r)) (concat frames).

(** [pd.to_datetime] on a column of datetimes. *)
Definition to_datetime (t : Z) : Z := t.

End Frame.

(** Comparison of rows through the [Time] and [Polarity] columns. *)
Definition by_time (a b : scored) : bool := (Time a <=? Time b)%Z.

Definition by_polarity (a b : scored) : bool := Qle_bool (Polarity a) (Polarity b).

(** ** [collections.Counter] *)
Module Counter.

(** [c[k] = c.get(k, 0) + 1]: a new key goes last. *)
Fixpoint add {K} `{EqDecision K} (k : K) (c : list (K * nat)) : list (K * nat) :=
  match c with
  | [] => [(k, 1)]
  | (k', n) :: c' =>
      if decide (k' = k) then (k', S n) :: c' else (k', n) :: add k c'
  end.

(** How often [k] is among [items], where it is first, and the items in
    order of first appearance. *)
Definition occurrences {K} `{EqDecision K} (k : K) (items : list K) : nat :=
  length (filter (λ y, y = k) items).

Fixpoint first_index {K} `{EqDecision K} (k : K) (items : list K) : nat :=
  match items with
  | [] => 0
  | x :: items' => if decide (x = k) then 0 else S (first_index k items')
  end.

Fixpoint nub {K} `{EqDecision K} (items : list K) : list K :=
  match items with
  | [] => []
  | x :: items' => x :: filter (λ y, y ≠ x) (nub items')
  end.

(** [a] goes before [b] in a ranking by count: a larger count, or the same
    count and an earlier first appearance among [items]. *)
Definition rank_before {K} `{EqDecision K} (items : list K) (a b : K * nat) : Prop :=
  b.2 < a.2 ∨ (a.2 = b.2 ∧ first_index a.1 items < first_index b.1 items).

(** [Counter(items)]: keys in order of first appearance. *)
Definition of_list {K} `{EqDecision K} (items : list K) : list (K * nat) :=
  foldl (λ c k, add k c) [] items.

(** [c.get(k, default)]. *)
Fixpoint get {K} `{EqDecision K} (c : list (K * nat)) (k : K) (default : nat) : nat :=
  match c with
  | [] => default
  | (k', n) :: c' => if decide (k' = k) then n else get c' k default
  end.

(** [c.most_common(n)] is [heapq.nlargest(n, c.items(), key=count)], which
    is [sorted(c.items(), key=count, reverse=True)[:n]]: Python's sort keeps
    equal counts in their original order. *)
Definition most_common {K} (n : nat) (c : list (K * nat)) : list (K * nat) :=
  take n (insertion_sort (λ a b, (b.2 <=? a.2)%nat) c).

End Counter.

(** [col.value_counts()], read only through [.get(label, 0)]: the order of
    the resulting Series is not modelled. *)
Definition value_counts (col : list sentiment) : list (sentiment * nat) :=
  Counter.of_list col.

(** ** The script *)

(** Line 92: the label of a polarity. *)
Definition Qltb (x y : Q) : bool := negb (Qle_bool y x).

Definition sent (pol sentiment_threshold : Q) : sentiment :=
  if Qltb sentiment_threshold pol then Positive
  else if Qltb pol (- sentiment_threshold)%Q then Negative
  else Neutral.

(** Lines 89-93; [polarity] stands for [TextBlob(text).sentiment.polarity]. *)
Definition analyze (polarity : string → Q) (sentiment_threshold : Q) (row : tweet)
  : Q * sentiment :=
  let pol := polarity (text row) in
  (pol, sent pol sentiment_threshold).

(** Lines 95-96 on one row: the three new columns. *)
Definition with_columns (polarity : string → Q) (sentiment_threshold : Q)
    (row : tweet) : scored :=
  let '(pol, s) := analyze polarity sentiment_threshold row in
  Scored row pol s (Frame.to_datetime (created_at row)).

(** Line 85: the keyword filter. *)
Definition keyword_filter `{Engine} (df : list tweet) (keyword : string)
    (tweet_count : Z) : option (list tweet) :=
  Frame.head tweet_count <$> Frame.text_contains keyword df.

(** *** Session state and the store of DataFrame objects *)

Inductive frame : Type :=
| Raw (rows : list tweet)         (* columns created_at, text *)
| Analysed (rows : list scored).  (* and Polarity, Sentiment, Time *)

(** [df.empty] *)
Definition empty (f : frame) : bool :=
  match f with
  | Raw [] | Analysed [] => true
  | _ => false
  end.

Record session_state : Type := Session {
  tweets_df : nat;
  analysis_df : nat
}.

Record world : Type := World {
  store : gmap nat frame;
  session : session_state
}.

(** A new object gets a reference that is not in use. *)
Definition alloc (f : frame) (h : gmap nat frame) : nat * gmap nat frame :=
  let r := fresh (dom h) in (r, <[r := f]> h).

Global Arguments alloc : simpl never.

(** The rows behind the two session entries. *)
Definition corpus (w : world) : option (list tweet) :=
  match store w !! tweets_df (session w) with
  | Some (Raw rows) => Some rows
  | _ => None
  end.

Definition result (w : world) : option (list scored) :=
  match store w !! analysis_df (session w) with
  | Some (Analysed rows) => Some rows
  | _ => None
  end.

(** Both session entries refer to live objects of the expected shape. *)
Definition well_formed (w : world) : Prop :=
  is_Some (corpus w) ∧ is_Some (result w).

(** [w'] still has every object of [w], unchanged. *)
Definition extends (w w' : world) : Prop :=
  ∀ r f, store w !! r = Some f → store w' !! r = Some f.

(** Index labels are positions, as [pd.DataFrame(list)] and
    [ignore_index=True] make them. *)
Definition labelled (rows : list tweet) : Prop :=
  ∀ i r, rows !! i = Some r → idx r = i.

(** Lines 39-42: the session of a fresh process; [demo] stands for the rows
    of [generate_demo_tweets(1200)], and [analysis_df] is an empty frame. *)
Definition initial (demo : list tweet) : world :=
  World (<[1 := Analysed []]> (<[0 := Raw demo]> ∅)) (Session 0 1).

(** The sidebar widgets (lines 67-76) and the two buttons, as read by one
    execution of the script. *)
Record controls : Type := Controls {
  keyword : string;
  tweet_count : Z;
  sentiment_threshold : Q;
  auto_refresh : bool;
  custom_tweet : string;
  add_clicked : bool;
  run_clicked : bool
}.

Inductive notice : Type :=
| success (msg : string)
| error (msg : string).

(** Lines 76-78; [now] is [datetime.now()].  [None]: a Python exception
    stops the script here. *)
Definition add_tweet (now : Z) (c : controls) (w : world)
  : option (world * list notice) :=
  if add_clicked c && Text.truthy (custom_tweet c) then
    match store w !! tweets_df (session w) with
    | Some (Raw rows) =>
        let new := Frame.concat_ignore_index [rows; [Tweet 0 now (custom_tweet c)]] in
        let '(r, h) := alloc (Raw new) (store w) in
        Some (World h (Session r (analysis_df (session w))),
              [success "Tweet added!"])
    | _ => None
    end
  else Some (w, []).

(** Lines 83-98.  [None]: a Python exception stops the script here; with
    the corpus in place that is the [re.error] of line 85. *)
Definition run_analysis `{SortKind} `{Engine} (polarity : string → Q) (c : controls)
    (w : world) : option (world * list notice) :=
  if run_clicked c || auto_refresh c then
    match store w !! tweets_df (session w) with
    | Some (Raw rows) =>
        sel ← keyword_filter rows (keyword c) (tweet_count c);
        let '(df, h1) := alloc (Raw sel) (store w) in
        if empty (Raw sel) then
          Some (World h1 (session w), [error "No tweets found for this keyword!"])
        else
          let cols := with_columns polarity (sentiment_threshold c) <$> sel in
          let h2 := <[df := Analysed cols]> h1 in
          let '(df', h3) := alloc (Analysed (Frame.sort_values by_time true cols)) h2 in
          Some (World h3 (Session (tweets_df (session w)) df'), [])
    | _ => None
    end
  else Some (w, []).

(** *** Main content (lines 103-153) *)

(** [df['Polarity'].mean()] *)
Definition Qsum (l : list Q) : Q := foldr Qplus 0%Q l.

Definition mean (l : list Q) : Q :=
  (Qsum l / inject_Z (Z.of_nat (length l)))%Q.

(** Line 145. *)
Definition words (texts : list string) : list string :=
  t ← texts; filter (λ w, negb (Text.startswith "http" w)) (Text.split t).

(** Lines 150 and 153 are one expression at two settings: the rows with one
    label, sorted on [Polarity], cut by [head]. *)
Definition ranked `{SortKind} (label : sentiment) (ascending : bool) (k : Z)
    (df : list scored) : list scored :=
  Frame.head k (Frame.sort_values by_polarity ascending
                  (filter (λ r, Sentiment r = label) df)).

Definition top_positive `{SortKind} (df : list scored) : list scored :=
  ranked Positive false 5 df.

Definition top_negative `{SortKind} (df : list scored) : list scored :=
  ranked Negative true 5 df.

(** Lines 105-107 and 146. *)
Definition total (df : list scored) : nat := length df.

Definition avg_pol (df : list scored) : Q := mean (Polarity <$> df).

Definition counts (df : list scored) : list (sentiment * nat) :=
  value_counts (Sentiment <$> df).

Definition trending_words (texts : list string) : list (string * nat) :=
  Counter.most_common 10 (Counter.of_list (words texts)).

Definition freq (df : list scored) : list (string * nat) :=
  trending_words ((text ∘ origin) <$> df).

(** What the page is drawn from. *)
Record summary : Type := Summary {
  shown_total : nat;
  shown_avg_pol : Q;
  shown_counts : list (sentiment * nat);
  shown_freq : list (string * nat);
  shown_top_positive : list scored;
  shown_top_negative : list scored
}.

Definition summarize `{SortKind} (df : list scored) : summary :=
  Summary (total df) (avg_pol df) (counts df) (freq df)
          (top_positive df) (top_negative df).

(** What the page shows: [Some None] when [analysis_df] is empty (line 103). *)
Definition main_content `{SortKind} (w : world) : option (option summary) :=
  f ← store w !! analysis_df (session w);
  if empty f then Some None
  else match f with
       | Analysed df => Some (Some (summarize df))
       | Raw _ => None
       end.

(** One execution of the script, top to bottom, when no exception stops
    it. *)
Definition script `{SortKind} `{Engine} (polarity : string → Q) (now : Z)
    (c : controls) (w : world) : option (world * list notice * option summary) :=
  '(w1, n1) ← add_tweet now c w;
  '(w2, n2) ← run_analysis polarity c w1;
  shown ← main_content w2;
  Some (w2, n1 ++ n2, shown).

(** The session that lines 83-98 leave behind, exception or not: line 85
    raises before any frame is made and before any session entry is
    assigned, so an exception leaves the session as it was. *)
Definition after_run `{SortKind} `{Engine} (polarity : string → Q) (c : controls)
    (w : world) : world :=
  match run_analysis polarity c w with
  | Some (w', _) => w'
  | None => w
  end.

(** The session that one execution of the script leaves behind, exception
    or not: what the add handler assigned stays when the run block raises,
    and the main content assigns nothing. *)
Definition after_script `{SortKind} `{Engine} (polarity : string → Q) (now : Z)
    (c : controls) (w : world) : world :=
  match add_tweet now c w with
  | Some (w1, _) => after_run polarity c w1
  | None => w
  end.

(** ** Sample data

    A stand-in for TextBlob on a few fixed texts, and frames built with it. *)
Module Samples.

Definition stub_polarity (t : string) : Q :=
  if String.eqb t "good" then 2 # 10
  else if String.eqb t "bad" then - (4 # 10)
  else if String.eqb t "t1" then 1 # 2
  else if String.eqb t "t2" then 1 # 2
  else if String.eqb t "t3" then 9 # 10
  else 0.

(** Polarities 0.2, -0.4 and 0.0 at threshold 0.1. *)
Definition three : list scored :=
  with_columns stub_polarity (1 # 10) <$>
    [Tweet 0 1 "good"; Tweet 1 2 "bad"; Tweet 2 3 "meh"].

(** Records t1, t2 (polarity 0.5 each) and t3 (polarity 0.9), in corpus and
    time order. *)
Definition podium : list scored :=
  with_columns stub_polarity (1 # 10) <$>
    [Tweet 0 1 "t1"; Tweet 1 2 "t2"; Tweet 2 3 "t3"].

(** A corpus whose second record is the oldest, and whose third is
    neutral. *)
Definition late_first : list tweet :=
  [Tweet 0 20 "t1"; Tweet 1 10 "t2"; Tweet 2 30 "t0"].

Definition r1 : scored := with_columns stub_polarity (1 # 10) (Tweet 0 20 "t1").
Definition r2 : scored := with_columns stub_polarity (1 # 10) (Tweet 1 10 "t2").
Definition r3 : scored := with_columns stub_polarity (1 # 10) (Tweet 2 30 "t0").

(** The frame a run leaves for [late_first]: sorted on [Time]. *)
Definition late_first_result : list scored := [r2; r1; r3].

(** A session over [late_first], and the sidebar set to keyword t,
    150 tweets, threshold 0.1, with Run pressed. *)
Definition late_first_world : world := initial late_first.

Definition run_t : controls :=
  Controls "t" 150 (1 # 10) false EmptyString false true.

(** A blank typed into the text area, with Add pressed. *)
Definition add_blank : controls :=
  Controls "Tesla" 150 (1 # 10) false " " true false.

(** A keyword that no text of [late_first] matches. *)
Definition run_zzz : controls :=
  Controls "zzz-no-match" 10 (1 # 10) false EmptyString false true.

(** Keywords with a bar: t1 or t0, which finds the first and the third
    record of [late_first], and zzz or yyy, which finds none. *)
Definition run_bar : controls :=
  Controls "t1|t0" 150 (1 # 10) false EmptyString false true.

Definition run_bar_none : controls :=
  Controls "zzz|yyy" 10 (1 # 10) false EmptyString false true.

(** A keyword that opens a group and does not close it. *)
Definition run_paren : controls :=
  Controls "(" 150 (1 # 10) false EmptyString false true.

End Samples.

(** ** The ranking as the specification words it

    All records of the classified subset, by polarity descending, equal
    polarities by corpus position, cut to the first [k]. *)
Definition claimed_before (a b : scored) : bool :=
  Qltb (Polarity b) (Polarity a) ||
  (Qeq_bool (Polarity a) (Polarity b) && (idx (origin a) <=? idx (origin b))%nat).

Definition claimed_top_positive (k : nat) (df : list scored) : list scored :=
  take k (insertion_sort claimed_before df).

(** What every execution of the script keeps true of the session: the
    corpus carries position labels; the stored result is sorted on [Time],
    and each of its rows stems from a record of the corpus and has that
    record's time. *)
Definition session_invariant (w : world) : Prop :=
  ∃ rows df,
    corpus w = Some rows ∧ result w = Some df ∧
    labelled rows ∧
    StronglySorted (λ a b, (Time a ≤ Time b)%Z) df ∧
    Forall (λ r, origin r ∈ rows ∧ Time r = created_at (origin r)) df.

(** The sessions a process can be in: the fresh one, and the one each
    execution of the script leaves behind, whether it ran to its end or was
    stopped by an exception. *)
Inductive reachable `{SortKind} `{Engine} (polarity : string → Q) (demo : list tweet)
  : world → Prop :=
| reachable_initial : reachable polarity demo (initial demo)
| reachable_script w now c :
    reachable polarity demo w →
    reachable polarity demo (after_script polarity now c w).

(** ** The demo data generator (lines 15-36)

    The texts of the templates are held as UTF-8 bytes; their emoji are
    neither blanks nor letters with a case. *)
Module Demo.

Definition brands : list string :=
  ["Tesla";
   "Apple";
   "Google";
   "Amazon";
   "Microsoft";
   "Netflix";
   "Spotify";
   "Nike";
   "Adidas";
   "Coca-Cola"].

Definition sentiments : list string :=
  ["Absolutely love {brand}'s latest innovation! Mind-blowing! 🚀🔥";
   "{brand} products are a total rip-off. So disappointed! 😡💔";
   "Just unboxed my new {brand} device – pure joy! 😍✨";
   "{brand} app crashes every time. Fix it already! 😤";
   "Thrilled with {brand}'s service! Highly recommend! 👍🌟";
   "{brand} is killing it with their updates! 📈🎉";
   "Why is {brand} so unreliable? Constant issues. 🙄";
   "Mixed feelings about {brand}. It's alright, I guess. 🤷‍♂️";
   "{brand} changed the game forever! Legendary! 👑";
   "Wasted money on {brand}. Never buying again! 💸🚫"].

(** [template.format(brand=brand)] for a template whose only fields are
    [{brand}]; [skip] counts the characters of a field still to pass. *)
Fixpoint format_go (skip : nat) (brand template : string) : string :=
  match template with
  | EmptyString => EmptyString
  | String c rest =>
      match skip with
      | S k => format_go k brand rest
      | O =>
          if Text.startswith "{brand}" template
          then brand +:+ format_go 6 brand rest
          else String c (format_go 0 brand rest)
      end
  end.

Definition format (template brand : string) : string :=
  format_go 0 brand template.

(** What one pass of the loop reads from outside: four random numbers and
    the clock ([datetime.now()], in microseconds). *)
Record draw : Type := Draw {
  brand_pick : nat;
  sentiment_pick : nat;
  days_pick : nat;
  hours_pick : nat;
  clock : Z
}.

(** [random.choice(seq)] and [random.randint(a, b)], driven by a random
    number. *)
Definition choice (seq : list string) (k : nat) : string :=
  nth (k mod length seq) seq EmptyString.

Definition randint (a b : nat) (k : nat) : nat := a + k mod (b - a + 1).

(** [timedelta(days=d, hours=h)], in microseconds. *)
Definition timedelta (days hours : nat) : Z :=
  ((Z.of_nat days * 24 + Z.of_nat hours) * 3600000000)%Z.

(** The body of the loop (lines 32-35). *)
Definition demo_tweet (d : draw) : Z * string :=
  let brand := choice brands (brand_pick d) in
  let text := format (choice sentiments (sentiment_pick d)) brand in
  let created_at :=
    (clock d - timedelta (randint 0 30 (days_pick d)) (randint 0 23 (hours_pick d)))%Z in
  (created_at, text).

(** [generate_demo_tweets(num_tweets)]; [source] gives the draws of each
    pass, and [pd.DataFrame] labels the rows by position. *)
Definition generate_demo_tweets (source : nat → draw) (num_tweets : nat) : list tweet :=
  imap (λ i p, Tweet i p.1 p.2) ((demo_tweet ∘ source) <$> seq 0 num_tweets).

(** The brand drawn for the row labelled [i]. *)
Definition brand_of (source : nat → draw) (i : nat) : string :=
  choice brands (brand_pick (source i)).

(** The template has a [{brand}] field. *)
Fixpoint has_field (template : string) : bool :=
  Text.startswith "{brand}" template ||
  match template with
  | EmptyString => false
  | String _ rest => has_field rest
  end.

(** The text before and the text after the first [{brand}] field of a
    template. *)
Fixpoint field_parts (template : string) : option (string * string) :=
  match template with
  | EmptyString => None
  | String c rest =>
      if Text.startswith "{brand}" template
      then Some (EmptyString, String.substring 6 (String.length rest - 6) rest)
      else prod_map (String c) id <$> field_parts rest
  end.

End Demo.

(** Line 137: the text handed to the word cloud, [' '.join(df['text'])]. *)
Definition text_all (df : list scored) : string :=
  String.concat " " ((text ∘ origin) <$> df).

(** ** Further notions and sample data *)

(** Two patterns that differ in the case of their literals only. *)
Definition same_up_to_case (a b : Re.atom) : Prop :=
  match a, b with
  | Re.Lit x, Re.Lit y => Text.lower_char x = Text.lower_char y
  | Re.AnyChar, Re.AnyChar => True
  | _, _ => False
  end.

(** Every brand, as a keyword, matches exactly the texts made for it. *)
Definition brand_table : bool :=
  forallb (λ kw,
    forallb (λ t,
      forallb (λ b,
        Bool.eqb (Re.search (Re.Lit <$> list_ascii_of_string kw) (Demo.format t b))
                 (String.eqb b kw))
        Demo.brands) Demo.sentiments) Demo.brands.

(** Draws that go through the brands in turn. *)
Definition round_robin (i : nat) : Demo.draw := Demo.Draw i (3 * i) i i 1700000000000000.

(** A session over the records good, bad and meh. *)
Definition three_world : world :=
  initial [Tweet 0 1 "good"; Tweet 1 2 "bad"; Tweet 2 3 "meh"].



(** The run for t1 or t0 again, at threshold 0.5; the run for good or
    bad; a tweet typed in with Add and Run pressed, for the keyword t1 or
    t9. *)
Definition run_bar_strict : controls :=
  Controls "t1|t0" 150 (1 # 2) false EmptyString false true.

Definition run_good_bad : controls :=
  Controls "good|bad" 150 (1 # 10) false EmptyString false true.

Definition add_and_run_bar : controls :=
  Controls "t1|t9" 150 (1 # 10) false "t9" true true.

(** * Properties *)

(** ** The pattern fragment against plain substring search *)
Section re_facts.
Import Text Re.

Lemma lower_app s t : lower (s +:+ t) = lower s +:+ lower t.
Proof. induction s as [|c s IH]; simpl; [done | by rewrite IH]. Qed.

Lemma match_here_lits k s :
  match_here (Lit <$> list_ascii_of_string k) s = true ↔
  ∃ post, lower s = lower k +:+ post.
Proof.
  revert s. induction k as [|a k IH]; intros s; simpl.
  - split; [eauto | done].
  - destruct s as [|c s]; simpl.
    + split; [done | by intros [? ?]].
    + rewrite andb_true_iff, Ascii.eqb_eq, IH. split.
      * intros [-> [post ->]]. eauto.
      * intros [post Hp]. injection Hp as -> ->. eauto.
Qed.

Lemma search_lits k s :
  search (Lit <$> list_ascii_of_string k) s = true ↔ ci_substring k s.
Proof.
  unfold ci_substring, substring. induction s as [|c s IH].
  - simpl. rewrite orb_false_r, match_here_lits. simpl. split.
    + intros [post Hp]. by exists EmptyString, post.
    + intros (pre & post & Hp). destruct pre; [eauto | done].
  - cbn [search lower]. rewrite orb_true_iff, match_here_lits, IH. cbn [lower]. split.
    + intros [[post Hp] | (pre & post & Hp)].
      * by exists EmptyString, post.
      * exists (String (lower_char c) pre), post. simpl. by rewrite Hp.
    + intros (pre & post & Hp). destruct pre as [|x pre]; simpl in Hp.
      * left. eauto.
      * right. injection Hp as _ Hp. eauto.
Qed.

Lemma compile_plain k :
  plain k → compile k = Some (Lit <$> list_ascii_of_string k).
Proof.
  unfold plain. induction k as [|c k IH]; simpl; [done |].
  intros Hk. apply Forall_cons in Hk as [Hc Hk].
  rewrite Hc, (IH Hk). simpl.
  by destruct (Ascii.eqb_spec c "."%char) as [-> | _].
Qed.

Global Instance ci_substring_dec k t : Decision (ci_substring k t).
Proof.
  refine (cast_if (decide (search (Lit <$> list_ascii_of_string k) t = true)));
    by rewrite <- search_lits.
Defined.

Lemma compile_paren pat :
  "("%char ∈ list_ascii_of_string pat → compile pat = None.
Proof.
  intros Hin. induction pat as [|c pat IH]; [by apply elem_of_nil in Hin |].
  simpl in Hin. apply elem_of_cons in Hin as [<- | Hin]; [done |].
  simpl. rewrite (IH Hin). simpl.
  by destruct (Ascii.eqb c "."), (special c).
Qed.

Lemma compile_unclosed pat : unclosed pat → compile pat = None.
Proof. intros [Hin _]. by apply compile_paren. Qed.

End re_facts.

(** The engine that knows the fragment and rejects every other pattern. *)
Definition fragment_engine : Engine :=
  {| compiled := list Re.atom;
     re_compile := Re.compile;
     re_search := Re.search;
     re_fragment := λ pat p Hp, ex_intro _ p (conj Hp (λ s, eq_refl));
     re_unclosed := compile_unclosed |}.

(** ** [head] and the keyword filter *)
Section filter_facts.
Context `{Engine}.

Lemma head_nonneg {A} (n : Z) (rows : list A) :
  (0 ≤ n)%Z → Frame.head n rows = take (Z.to_nat n) rows.
Proof. intros Hn. unfold Frame.head. by rewrite (proj2 (Z.leb_le 0 n) Hn). Qed.

Lemma head_take {A} (n : Z) (rows : list A) :
  ∃ m, Frame.head n rows = take m rows.
Proof. unfold Frame.head. destruct (0 <=? n)%Z; eauto. Qed.

Lemma head_nil {A} (n : Z) : Frame.head n (@nil A) = [].
Proof. destruct (head_take n (@nil A)) as [m ->]. by rewrite take_nil. Qed.

Lemma head_all {A} (n : Z) (rows : list A) :
  (Z.of_nat (length rows) ≤ n)%Z → Frame.head n rows = rows.
Proof.
  intros Hn. rewrite head_nonneg by lia. apply take_ge. lia.
Qed.

Lemma head_length {A} (n : Z) (rows : list A) :
  (0 ≤ n)%Z → length (Frame.head n rows) = Z.to_nat n `min` length rows.
Proof. intros Hn. rewrite head_nonneg by done. apply length_take. Qed.

(** On a pattern of the fragment the engine selects what [Re] says. *)
Lemma text_contains_fragment pat p rows :
  Re.compile pat = Some p →
  Frame.text_contains pat rows = Some (filter (λ r, Re.search p (text r)) rows).
Proof.
  intros Hp. unfold Frame.text_contains.
  destruct (re_fragment pat p Hp) as (q & -> & Hq). simpl. f_equal.
  apply list_filter_iff. intros r. by rewrite Hq.
Qed.

Lemma keyword_filter_fragment df kw p n :
  Re.compile kw = Some p →
  keyword_filter df kw n =
  Some (Frame.head n (filter (λ r, Re.search p (text r)) df)).
Proof.
  intros Hp. unfold keyword_filter. by rewrite (text_contains_fragment kw p).
Qed.

Lemma text_contains_plain kw rows :
  Re.plain kw →
  Frame.text_contains kw rows =
  Some (filter (λ r, Text.ci_substring kw (text r)) rows).
Proof.
  intros Hk. rewrite (text_contains_fragment _ _ _ (compile_plain _ Hk)).
  f_equal. apply list_filter_iff. intros r.
  rewrite <- search_lits. apply Is_true_true.
Qed.

(** On a keyword without special characters the filter is the
    case-insensitive substring selection, in corpus order, cut to the first
    [tweet_count] rows. *)
Lemma keyword_filter_plain df kw n :
  Re.plain kw → (0 ≤ n)%Z →
  keyword_filter df kw n =
  Some (take (Z.to_nat n) (filter (λ r, Text.ci_substring kw (text r)) df)).
Proof.
  intros Hk Hn. unfold keyword_filter.
  rewrite (text_contains_plain _ _ Hk). simpl. by rewrite head_nonneg.
Qed.

(** Whatever the keyword, the rows selected keep their corpus order. *)
Lemma keyword_filter_sublist df kw n sel :
  keyword_filter df kw n = Some sel → sel `sublist_of` df.
Proof.
  unfold keyword_filter, Frame.text_contains. intros Hsel.
  destruct (re_compile kw) as [q|]; simplify_eq/=.
  destruct (head_take n (filter (λ r, re_search q (text r)) df)) as [m ->].
  etrans; [apply sublist_take | apply sublist_filter].
Qed.

(** C1. The keyword is compiled as a pattern, not taken literally: on the
    keyword made of one dot the filter selects a record whose text has no dot
    in it, so it does not select exactly the records that contain the keyword
    as a case-insensitive substring. *)
Theorem keyword_filter_dot_selects_text_without_dot :
  keyword_filter [Tweet 0 0 "abc"] "." 150 = Some [Tweet 0 0 "abc"] ∧
  ¬ Text.ci_substring "." "abc".
Proof.
  split; [by rewrite (keyword_filter_fragment _ "." [Re.AnyChar]) |].
  rewrite <- search_lits. by vm_compute.
Qed.

End filter_facts.

(** ** The sentiment label (line 92) *)
Section label_facts.

Lemma Qltb_lt x y : Qltb x y = true ↔ (x < y)%Q.
Proof.
  unfold Qltb. rewrite negb_true_iff, <- not_true_iff_false, Qle_bool_iff.
  split; [apply Qnot_le_lt | apply Qlt_not_le].
Qed.

Lemma Qltb_ge x y : Qltb x y = false ↔ (y <= x)%Q.
Proof. unfold Qltb. by rewrite negb_false_iff, Qle_bool_iff. Qed.

Lemma sent_cases pol thr :
  ((thr < pol)%Q ∧ sent pol thr = Positive) ∨
  ((pol <= thr)%Q ∧ (pol < - thr)%Q ∧ sent pol thr = Negative) ∨
  ((pol <= thr)%Q ∧ (- thr <= pol)%Q ∧ sent pol thr = Neutral).
Proof.
  unfold sent.
  destruct (Qltb thr pol) eqn:Hp; [left; by apply Qltb_lt in Hp |].
  apply Qltb_ge in Hp. right.
  destruct (Qltb pol (- thr)) eqn:Hn.
  - left. by apply Qltb_lt in Hn.
  - right. by apply Qltb_ge in Hn.
Qed.

(** C2. For a polarity in [-1, 1] and a threshold in [0, 1/2] the label is
    Positive exactly when polarity > threshold, Negative exactly when
    polarity < -threshold, and Neutral exactly when neither holds; a polarity
    equal to the threshold or to its opposite is Neutral, also at threshold
    0. *)
Theorem sent_strict_thresholds (pol thr : Q) :
  (-1 <= pol)%Q ∧ (pol <= 1)%Q → (0 <= thr)%Q ∧ (thr <= 1 # 2)%Q →
  (sent pol thr = Positive ↔ (thr < pol)%Q) ∧
  (sent pol thr = Negative ↔ (pol < - thr)%Q) ∧
  (sent pol thr = Neutral ↔ ¬ (thr < pol)%Q ∧ ¬ (pol < - thr)%Q) ∧
  ((pol == thr)%Q → sent pol thr = Neutral) ∧
  ((pol == - thr)%Q → sent pol thr = Neutral) ∧
  sent 0 0 = Neutral.
Proof.
  intros _ [Hthr _].
  assert (Hneg : (- thr <= thr)%Q).
  { apply Qle_trans with 0%Q; [| done].
    change 0%Q with (- 0)%Q. by apply Qopp_le_compat. }
  assert (Hexcl : (thr < pol)%Q → (pol < - thr)%Q → False).
  { intros H1 H2. apply (Qlt_irrefl pol).
    eapply Qlt_le_trans; [exact H2 |].
    eapply Qle_trans; [exact Hneg | by apply Qlt_le_weak]. }
  destruct (sent_cases pol thr) as [[Hp ->] | [(Hle & Hn & ->) | (Hle & Hge & ->)]].
  - repeat split; try done.
    + intros ?. exfalso. eauto.
    + intros [? _]. done.
    + intros Heq. rewrite Heq in Hp. by apply Qlt_irrefl in Hp.
    + intros Heq. rewrite Heq in Hp. exfalso.
      apply (Qlt_irrefl thr). by eapply Qlt_le_trans.
  - repeat split; try done.
    + intros Hp. by apply Qlt_not_le in Hp.
    + intros [_ ?]. done.
    + intros Heq. rewrite Heq in Hn. exfalso.
      apply (Qlt_irrefl thr). by eapply Qlt_le_trans.
    + intros Heq. rewrite Heq in Hn. by apply Qlt_irrefl in Hn.
  - repeat split; try done.
    + intros Hp. by apply Qlt_not_le in Hp.
    + intros Hn. by apply Qlt_not_le in Hn.
    + by apply Qle_not_lt.
    + by apply Qle_not_lt.
Qed.

(** The boundary cases of the specification, through the theorem. *)
Lemma sent_strict_thresholds_witness :
  sent (3 # 10) (3 # 10) = Neutral ∧ sent (31 # 100) (3 # 10) = Positive ∧
  sent (- (3 # 10)) (3 # 10) = Neutral.
Proof.
  assert (Hthr : (0 <= 3 # 10)%Q ∧ (3 # 10 <= 1 # 2)%Q) by (by vm_compute).
  split; [| split].
  - destruct (sent_strict_thresholds (3 # 10) (3 # 10)) as (_ & _ & _ & H & _);
      [by vm_compute | exact Hthr |]. by apply H.
  - destruct (sent_strict_thresholds (31 # 100) (3 # 10)) as (H & _);
      [by vm_compute | exact Hthr |]. by apply H.
  - destruct (sent_strict_thresholds (- (3 # 10)) (3 # 10)) as (_ & _ & _ & _ & H & _);
      [by vm_compute | exact Hthr |]. by apply H.
Defined.

End label_facts.

(** ** Sorting *)
Section sort_facts.
Context {A : Type} (le : A → A → bool).

Lemma insert_by_perm x l : insert_by le x l ≡ₚ x :: l.
Proof.
  induction l as [|y l IH]; simpl; [done |].
  destruct (le x y); [done |]. rewrite IH. apply Permutation_swap.
Qed.

Lemma insertion_sort_perm l : insertion_sort le l ≡ₚ l.
Proof.
  induction l as [|x l IH]; simpl; [done |].
  by rewrite insert_by_perm, IH.
Qed.

Lemma insert_by_rank pos x l :
  total_le le → trans_le le →
  Forall (pos x) l →
  StronglySorted (stable_rank le pos) l →
  StronglySorted (stable_rank le pos) (insert_by le x l).
Proof.
  intros Htot Htr Hpos Hs. induction Hs as [|y l Hs IH Hy]; simpl.
  - repeat constructor.
  - apply Forall_cons in Hpos as [Hxy Hxl].
    destruct (le x y) eqn:Hle.
    + constructor; [by constructor |].
      constructor; [by split |].
      rewrite Forall_forall in Hy, Hxl |- *. intros z Hz. split.
      * eapply Htr; [exact Hle | apply Hy, Hz].
      * intros _. by apply Hxl.
    + constructor; [by apply IH |].
      rewrite insert_by_perm. constructor; [| done].
      split; [| by rewrite Hle].
      by destruct (Htot x y) as [Hc | Hc]; [rewrite Hle in Hc |].
Qed.

Lemma insertion_sort_rank pos l :
  total_le le → trans_le le →
  StronglySorted pos l →
  StronglySorted (stable_rank le pos) (insertion_sort le l).
Proof.
  intros Htot Htr Hs. induction Hs as [|x l Hs IH Hx]; simpl; [constructor |].
  apply insert_by_rank; [done | done | | done].
  by rewrite insertion_sort_perm.
Qed.

Lemma StronglySorted_weaken_elem (R S : A → A → Prop) l :
  (∀ a b, a ∈ l → b ∈ l → R a b → S a b) →
  StronglySorted R l → StronglySorted S l.
Proof.
  intros HRS Hs. induction Hs as [|x l Hs IH Hx]; constructor.
  - apply IH. intros a b Ha Hb. apply HRS; apply elem_of_cons; by right.
  - rewrite Forall_forall in Hx |- *. intros y Hy.
    apply HRS; [apply elem_of_cons; by left | apply elem_of_cons; by right | auto].
Qed.

Lemma StronglySorted_weaken (R S : A → A → Prop) l :
  (∀ a b, R a b → S a b) → StronglySorted R l → StronglySorted S l.
Proof. intros HRS. apply StronglySorted_weaken_elem. auto. Qed.

Lemma StronglySorted_filter (R : A → A → Prop) (P : A → Prop)
    `{∀ x, Decision (P x)} l :
  StronglySorted R l → StronglySorted R (filter P l).
Proof.
  intros Hs. induction Hs as [|x l Hs IH Hx]; [constructor |].
  rewrite filter_cons. destruct (decide (P x)); [| done].
  constructor; [done |].
  rewrite Forall_forall in Hx |- *.
  intros y [_ Hy]%list_elem_of_filter. auto.
Qed.

Lemma StronglySorted_take (R : A → A → Prop) n l :
  StronglySorted R l → StronglySorted R (take n l).
Proof.
  intros Hs. revert n. induction Hs as [|x l Hs IH Hx]; intros [|n]; simpl;
    try constructor; [done |].
  rewrite Forall_forall in Hx |- *.
  intros y (i & Hi & _)%elem_of_take. apply Hx. by eapply list_elem_of_lookup_2.
Qed.

Lemma insertion_sort_sorted l :
  total_le le → trans_le le →
  StronglySorted (λ a b, le a b = true) (insertion_sort le l).
Proof.
  intros Htot Htr.
  apply (StronglySorted_weaken (stable_rank le (λ _ _, True))); [by intros a b [? _] |].
  apply insertion_sort_rank; [done | done |].
  induction l; constructor; [done | by apply Forall_true].
Qed.

(** Insertion sort is stable: the rows of one key keep their order. *)
Lemma insert_by_filter (P : A → Prop) `{∀ x, Decision (P x)} x l :
  (∀ y, P x → P y → le x y = true) →
  filter P (insert_by le x l) = filter P (x :: l).
Proof.
  intros Hle. induction l as [|y l IH]; [done |].
  cbn [insert_by]. destruct (le x y) eqn:Hxy; [done |].
  rewrite filter_cons, IH, !filter_cons.
  destruct (decide (P x)) as [Hx | Hx], (decide (P y)) as [Hy | Hy]; try done.
  by rewrite (Hle y Hx Hy) in Hxy.
Qed.

Lemma insertion_sort_filter (P : A → Prop) `{∀ x, Decision (P x)} l :
  (∀ x y, P x → P y → le x y = true) →
  filter P (insertion_sort le l) = filter P l.
Proof.
  intros Hle. induction l as [|x l IH]; [done |].
  cbn [insertion_sort]. rewrite insert_by_filter by (intros y; apply Hle).
  by rewrite !filter_cons, IH.
Qed.

Lemma StronglySorted_rev (R : A → A → Prop) l :
  StronglySorted R l → StronglySorted (flip R) (reverse l).
Proof.
  intros Hs. induction Hs as [|x l Hs IH Hx]; [constructor |].
  rewrite reverse_cons. apply StronglySorted_app; split_and!; [| done | repeat constructor].
  intros a b Ha Hb. apply list_elem_of_singleton in Hb as ->.
  rewrite Forall_forall in Hx. apply Hx. by apply elem_of_reverse.
Qed.

End sort_facts.

(** Two kinds of sort that keep the promise: one stable, one that reverses
    equal keys. *)
Definition stable_kind : SortKind.
Proof.
  refine {| sort_by := @insertion_sort |}.
  - intros A le l. apply insertion_sort_perm.
  - intros A le l. apply insertion_sort_sorted.
Defined.

Definition reversing_kind : SortKind.
Proof.
  refine {| sort_by := λ A le l, insertion_sort le (reverse l) |}.
  - intros A le l. by rewrite insertion_sort_perm, reverse_Permutation.
  - intros A le l. apply insertion_sort_sorted.
Defined.

Section sort_values_facts.
Context `{SortKind} {A : Type} (le : A → A → bool).

Lemma sort_values_perm asc (rows : list A) :
  Frame.sort_values le asc rows ≡ₚ rows.
Proof.
  unfold Frame.sort_values. destruct asc; [apply sort_by_perm |].
  by rewrite reverse_Permutation, sort_by_perm, reverse_Permutation.
Qed.

Lemma sort_values_ascending (rows : list A) :
  total_le le → trans_le le →
  StronglySorted (λ a b, le a b = true) (Frame.sort_values le true rows).
Proof. apply sort_by_sorted. Qed.

Lemma sort_values_descending (rows : list A) :
  total_le le → trans_le le →
  StronglySorted (λ a b, le b a = true) (Frame.sort_values le false rows).
Proof.
  intros Htot Htr. unfold Frame.sort_values.
  apply (StronglySorted_rev (λ a b, le a b = true)). by apply sort_by_sorted.
Qed.

End sort_values_facts.

(** Under the stable kind of sort, ascending or descending, the rows of one
    key come out in the order they went in. *)
Lemma stable_sort_values_filter {A} (le : A → A → bool) (P : A → Prop)
    `{∀ x, Decision (P x)} asc (rows : list A) :
  (∀ x y, P x → P y → le x y = true) →
  filter P (@Frame.sort_values stable_kind A le asc rows) = filter P rows.
Proof.
  intros Hle. unfold Frame.sort_values. destruct asc; simpl.
  - by apply insertion_sort_filter.
  - rewrite filter_reverse, insertion_sort_filter, filter_reverse by done.
    apply reverse_involutive.
Qed.

Lemma by_time_total : total_le by_time.
Proof. intros a b. unfold by_time. rewrite !Z.leb_le. lia. Qed.

Lemma by_time_trans : trans_le by_time.
Proof. intros a b c. unfold by_time. rewrite !Z.leb_le. lia. Qed.

Lemma by_polarity_total : total_le by_polarity.
Proof.
  intros a b. unfold by_polarity. rewrite !Qle_bool_iff.
  destruct (Qlt_le_dec (Polarity b) (Polarity a)) as [Hlt | Hle]; [right | left]; [| done].
  by apply Qlt_le_weak.
Qed.

Lemma by_polarity_trans : trans_le by_polarity.
Proof.
  intros a b c. unfold by_polarity. rewrite !Qle_bool_iff. apply Qle_trans.
Qed.

(** ** [Counter] *)
Section counter_facts.
Context {K : Type} `{EqDecision K}.
Import Counter.

Lemma elem_of_nub (k : K) l : k ∈ nub l ↔ k ∈ l.
Proof.
  induction l as [|x l IH]; simpl; [done |].
  rewrite !elem_of_cons, list_elem_of_filter, IH.
  destruct (decide (k = x)); tauto.
Qed.

Lemma NoDup_nub (l : list K) : NoDup (nub l).
Proof.
  induction l as [|x l IH]; simpl; constructor.
  - rewrite list_elem_of_filter. by intros [? _].
  - by apply NoDup_filter.
Qed.

Lemma nub_snoc (l : list K) k :
  nub (l ++ [k]) = if decide (k ∈ l) then nub l else nub l ++ [k].
Proof.
  induction l as [|x l IH]; simpl.
  - done.
  - rewrite IH. destruct (decide (k ∈ l)) as [Hin | Hin].
    + by rewrite decide_True by (apply elem_of_cons; by right).
    + rewrite filter_app, filter_cons, filter_nil.
      destruct (decide (k = x)) as [-> | Hne].
      * rewrite (decide_False (P := x ≠ x)) by (by intros ?).
        rewrite (decide_True (P := x ∈ x :: l)) by (apply elem_of_cons; by left).
        by rewrite app_nil_r.
      * rewrite (decide_True (P := k ≠ x)) by done.
        by rewrite (decide_False (P := k ∈ x :: l)) by (rewrite elem_of_cons; intros [? | ?]; [congruence | done]).
Qed.

Lemma occurrences_snoc (w k : K) l :
  occurrences w (l ++ [k]) =
  if decide (w = k) then S (occurrences w l) else occurrences w l.
Proof.
  unfold occurrences. rewrite filter_app, length_app, filter_cons, filter_nil.
  destruct (decide (w = k)) as [-> | Hne].
  - rewrite decide_True by done. simpl. lia.
  - rewrite decide_False by done. simpl. lia.
Qed.

Lemma occurrences_absent (k : K) l : k ∉ l → occurrences k l = 0.
Proof.
  unfold occurrences. intros Hk. induction l as [|x l IH]; [done |].
  apply not_elem_of_cons in Hk as [Hne Hk].
  rewrite filter_cons, decide_False by done. auto.
Qed.

Lemma occurrences_present (k : K) l : k ∈ l → 0 < occurrences k l.
Proof.
  unfold occurrences. induction l as [|x l IH]; [by intros ?%elem_of_nil |].
  rewrite filter_cons. destruct (decide (x = k)); simpl; [lia |].
  rewrite elem_of_cons. intros [-> | Hk]; [done | auto].
Qed.

Lemma add_tabulated (f : K → nat) (ks : list K) k :
  NoDup ks →
  add k ((λ w, (w, f w)) <$> ks) =
  if decide (k ∈ ks)
  then (λ w, (w, if decide (w = k) then S (f w) else f w)) <$> ks
  else ((λ w, (w, f w)) <$> ks) ++ [(k, 1)].
Proof.
  induction 1 as [|x ks Hx Hnd IH]; [done |].
  rewrite !fmap_cons. cbn [add].
  - destruct (decide (x = k)) as [-> | Hne].
    + rewrite (decide_True (P := k ∈ k :: ks)) by (apply elem_of_cons; by left).
      f_equal.
      apply list_fmap_ext. intros i w Hw.
      rewrite decide_False; [done |].
      intros ->. apply Hx. by eapply list_elem_of_lookup_2.
    + rewrite IH. destruct (decide (k ∈ ks)) as [Hin | Hin].
      * by rewrite (decide_True (P := k ∈ x :: ks)) by (apply elem_of_cons; by right).
      * by rewrite (decide_False (P := k ∈ x :: ks)) by (rewrite elem_of_cons; intros [? | ?]; [congruence | done]).
Qed.

(** A counter is the table of occurrences, keys in order of first
    appearance. *)
Lemma of_list_tabulated (l : list K) :
  of_list l = (λ w, (w, occurrences w l)) <$> nub l.
Proof.
  induction l as [|k l IH] using rev_ind; [done |].
  unfold of_list in *. rewrite foldl_app. simpl. rewrite IH.
  rewrite add_tabulated by apply NoDup_nub. rewrite nub_snoc.
  destruct (decide (k ∈ l)) as [Hin | Hin].
  - rewrite decide_True by (by apply elem_of_nub).
    apply list_fmap_ext. intros i w _. by rewrite occurrences_snoc.
  - rewrite decide_False by (by rewrite elem_of_nub).
    rewrite fmap_app. simpl. f_equal.
    + apply list_fmap_ext. intros i w Hw. rewrite occurrences_snoc.
      rewrite decide_False; [done |]. intros ->.
      apply Hin, elem_of_nub. by eapply list_elem_of_lookup_2.
    + rewrite occurrences_snoc, decide_True by done.
      by rewrite occurrences_absent.
Qed.

Lemma get_tabulated (f : K → nat) (ks : list K) k d :
  get ((λ w, (w, f w)) <$> ks) k d = if decide (k ∈ ks) then f k else d.
Proof.
  induction ks as [|x ks IH]; [done |].
  rewrite fmap_cons. cbn [get].
  destruct (decide (x = k)) as [-> | Hne].
  - by rewrite (decide_True (P := k ∈ k :: ks)) by (apply elem_of_cons; by left).
  - rewrite IH. destruct (decide (k ∈ ks)).
    + by rewrite (decide_True (P := k ∈ x :: ks)) by (apply elem_of_cons; by right).
    + by rewrite (decide_False (P := k ∈ x :: ks)) by (rewrite elem_of_cons; intros [? | ?]; [congruence | done]).
Qed.

(** [Counter(items).get(k, 0)] is the number of occurrences of [k]. *)
Lemma get_of_list (l : list K) k : get (of_list l) k 0 = occurrences k l.
Proof.
  rewrite of_list_tabulated, get_tabulated.
  destruct (decide (k ∈ nub l)) as [Hin | Hin]; [done |].
  symmetry. apply occurrences_absent. by rewrite <- elem_of_nub.
Qed.

Lemma elem_of_of_list (l : list K) k n :
  (k, n) ∈ of_list l ↔ k ∈ l ∧ n = occurrences k l.
Proof.
  rewrite of_list_tabulated, list_elem_of_fmap. split.
  - intros (w & Heq & Hw). simplify_eq. split; [by apply elem_of_nub | done].
  - intros [Hk ->]. exists k. by rewrite elem_of_nub.
Qed.

Lemma of_list_keys (l : list K) : (of_list l).*1 = nub l.
Proof.
  rewrite of_list_tabulated, <- list_fmap_compose.
  rewrite <- (list_fmap_id (nub l)) at 2. by apply list_fmap_ext.
Qed.

Lemma first_index_nub_sorted (l : list K) :
  StronglySorted (λ a b, first_index a l < first_index b l) (nub l).
Proof.
  induction l as [|x l IH]; simpl; [constructor |].
  constructor.
  - eapply StronglySorted_weaken_elem; [| apply StronglySorted_filter, IH].
    intros a b [Ha _]%list_elem_of_filter [Hb _]%list_elem_of_filter Hab.
    rewrite !decide_False by done. lia.
  - apply Forall_forall. intros k [Hk Hne]%list_elem_of_filter.
    rewrite decide_True by done. rewrite decide_False by done. lia.
Qed.

End counter_facts.

(** ** Tokens and trending words (lines 145-146) *)
Section trend_facts.
Import Text.

Lemma append_cons c s t : String c s +:+ t = String c (s +:+ t).
Proof. reflexivity. Qed.

Lemma append_nil_r s : s +:+ EmptyString = s.
Proof. induction s as [|c s IH]; [done | by rewrite append_cons, IH]. Qed.

Lemma append_assoc s t u : (s +:+ t) +:+ u = s +:+ (t +:+ u).
Proof. induction s as [|c s IH]; [done | by rewrite !append_cons, IH]. Qed.

Lemma chars_append s t :
  list_ascii_of_string (s +:+ t) = list_ascii_of_string s ++ list_ascii_of_string t.
Proof.
  induction s as [|c s IH]; [done |].
  rewrite append_cons. simpl. by rewrite IH.
Qed.

Lemma solid_snoc cur c : 
  (cur = EmptyString ∨ solid cur) → isspace c = false →
  solid (cur +:+ String c EmptyString).
Proof.
  intros Hcur Hc. split.
  - by destruct cur.
  - rewrite chars_append. apply Forall_app. split.
    + destruct Hcur as [-> | [_ ?]]; [constructor | done].
    + by repeat constructor.
Qed.

Lemma tokenized_after_blank c s ws :
  isspace c = true → tokenized s ws → tokenized (String c s) ws.
Proof.
  intros Hc Hs. destruct Hs as [g Hg | g w Hg Hw | g w c' rest ws Hg Hw Hc' Hrest].
  - apply tokenized_blank. by constructor.
  - apply (tokenized_last (String c g)); [by constructor | done].
  - apply (tokenized_more (String c g)); [by constructor | done ..].
Qed.

Lemma split_go_tokenized s :
  tokenized s (split_go EmptyString s) ∧
  ∀ cur, solid cur → tokenized (cur +:+ s) (split_go cur s).
Proof.
  induction s as [|c s [IH0 IH]]; simpl.
  - split; [apply tokenized_blank; constructor |].
    intros cur Hcur. rewrite append_nil_r.
    rewrite (proj2 (String.eqb_neq cur EmptyString)) by apply Hcur.
    apply (tokenized_last EmptyString); [constructor | done].
  - destruct (isspace c) eqn:Hc.
    + split; [by apply tokenized_after_blank |].
      intros cur Hcur.
      rewrite (proj2 (String.eqb_neq cur EmptyString)) by apply Hcur.
      by apply (tokenized_more EmptyString); [constructor | ..].
    + split.
      * apply (IH (String c EmptyString)). apply (solid_snoc EmptyString); auto.
      * intros cur Hcur.
        change (cur +:+ String c s) with (cur +:+ (String c EmptyString +:+ s)).
        rewrite <- append_assoc.
        apply IH, solid_snoc; auto.
Qed.

(** [split] cuts a text at its blanks and nowhere else. *)
Lemma split_tokenized s : tokenized s (split s).
Proof. apply split_go_tokenized. Qed.

Lemma split_go_blank g s :
  blank g → split_go EmptyString (g +:+ s) = split_go EmptyString s.
Proof.
  unfold blank. induction g as [|c g IH]; [done |].
  cbn [list_ascii_of_string]. intros [Hc Hg]%Forall_cons.
  rewrite append_cons. cbn [split_go]. rewrite Hc.
  change (String.eqb EmptyString EmptyString) with true. cbv iota. by apply IH.
Qed.

Lemma split_go_solid cur w s :
  Forall (λ c, isspace c = false) (list_ascii_of_string w) →
  split_go cur (w +:+ s) = split_go (cur +:+ w) s.
Proof.
  revert cur. induction w as [|c w IH]; intros cur.
  - intros _. by rewrite append_nil_r.
  - cbn [list_ascii_of_string]. intros [Hc Hw]%Forall_cons.
    rewrite append_cons. cbn [split_go].
    rewrite Hc, (IH _ Hw), append_assoc. by rewrite append_cons.
Qed.

Lemma split_go_word w s :
  solid w → split_go EmptyString (w +:+ s) = split_go w s.
Proof. intros [_ Hw]. by rewrite split_go_solid. Qed.

(** [split] is the only way to cut a text at its blanks. *)
Lemma tokenized_split s ws : tokenized s ws → split s = ws.
Proof.
  unfold split.
  induction 1 as [g Hg | g w Hg Hw | g w c rest ws Hg Hw Hc Hrest IH].
  - rewrite <- (append_nil_r g). by rewrite split_go_blank.
  - rewrite split_go_blank by done.
    pose proof (split_go_word w EmptyString Hw) as Hword.
    rewrite append_nil_r in Hword. rewrite Hword. cbn [split_go].
    by rewrite (proj2 (String.eqb_neq w EmptyString)) by apply Hw.
  - rewrite split_go_blank, split_go_word by done. cbn [split_go].
    rewrite Hc, (proj2 (String.eqb_neq w EmptyString)) by apply Hw.
    by rewrite IH.
Qed.

Lemma tokenized_iff s ws : tokenized s ws ↔ ws = split s.
Proof.
  split; [by intros <-%tokenized_split | intros ->; apply split_tokenized].
Qed.

Lemma tokenized_all texts toks :
  Forall2 tokenized texts toks → texts ≫= split = concat toks.
Proof.
  induction 1 as [|t ws texts toks Ht _ IH]; [done |].
  by rewrite bind_cons, IH, (tokenized_split t ws Ht).
Qed.

Lemma split_all_tokenized texts : Forall2 tokenized texts (split <$> texts).
Proof.
  induction texts as [|t texts IH]; constructor; [apply split_tokenized | done].
Qed.

Lemma startswith_spec p w : startswith p w = true ↔ begins_with p w.
Proof.
  unfold begins_with. revert w. induction p as [|a p IH]; intros w.
  - split; [by exists w | done].
  - destruct w as [|b w]; simpl.
    + split; [done | by intros [rest ?]].
    + rewrite andb_true_iff, Ascii.eqb_eq, IH. split.
      * intros [-> [rest ->]]. by exists rest.
      * intros [rest Hw]. rewrite append_cons in Hw. injection Hw as -> ->. eauto.
Qed.

Global Instance begins_with_dec p w : Decision (begins_with p w).
Proof.
  refine (cast_if (decide (startswith p w = true))); by rewrite <- startswith_spec.
Defined.

Lemma elem_of_words texts w :
  w ∈ words texts ↔
  ∃ t, t ∈ texts ∧ w ∈ split t ∧ startswith "http" w = false.
Proof.
  unfold words. rewrite list_elem_of_bind. split.
  - intros (t & Hw & Ht). apply list_elem_of_filter in Hw as [Hh Hw].
    exists t. split_and!; [done | done |].
    by destruct (startswith "http" w).
  - intros (t & Ht & Hw & Hh). exists t. split; [| done].
    apply list_elem_of_filter. by rewrite Hh.
Qed.

(** Line 145 keeps, in order, the words that do not begin with http. *)
Lemma words_kept texts :
  words texts = filter (λ w, ¬ begins_with "http" w) (texts ≫= split).
Proof.
  unfold words. induction texts as [|t texts IH]; [done |].
  rewrite !bind_cons, filter_app, IH. f_equal.
  apply list_filter_iff. intros w. rewrite <- startswith_spec.
  destruct (startswith "http" w); simpl; split; done.
Qed.

Lemma words_of_tokens texts toks :
  Forall2 tokenized texts toks →
  words texts = filter (λ w, ¬ begins_with "http" w) (concat toks).
Proof. intros Htoks. by rewrite words_kept, (tokenized_all texts toks). Qed.

Lemma count_order_total {K} : total_le (λ a b : K * nat, (b.2 <=? a.2)%nat).
Proof. intros a b. rewrite !Nat.leb_le. lia. Qed.

Lemma count_order_trans {K} : trans_le (λ a b : K * nat, (b.2 <=? a.2)%nat).
Proof. intros a b c. rewrite !Nat.leb_le. lia. Qed.

(** C4. The trending words. Every text is cut at blanks only: [split] gives
    the one list of words that, set off by blanks, make up the text. The
    words that begin with http are left out and the others kept as written,
    in order, over all the texts. Each kept word is counted over all the
    texts, and the list shown is the first ten of the words ranked by larger
    count, then by earlier first appearance. On the texts "a b" and "b a",
    word a comes before word b; a link and a word httpd are not counted, and
    B and b are two words. *)
Theorem trending_words_ranked (texts : list string) :
  let ws := words texts in
  (∀ t toks, Text.tokenized t toks ↔ toks = Text.split t) ∧
  (∀ p w, Text.startswith p w = true ↔ Text.begins_with p w) ∧
  ws = filter (λ w, ¬ Text.begins_with "http" w) (texts ≫= Text.split) ∧
  (∀ toks, Forall2 Text.tokenized texts toks →
           ws = filter (λ w, ¬ Text.begins_with "http" w) (concat toks)) ∧
  (∀ w, w ∈ ws ↔
        ∃ t, t ∈ texts ∧ w ∈ Text.split t ∧ Text.startswith "http" w = false) ∧
  (∃ full,
      trending_words texts = take 10 full ∧
      NoDup full.*1 ∧
      (∀ w n, (w, n) ∈ full ↔ w ∈ ws ∧ n = Counter.occurrences w ws) ∧
      StronglySorted (Counter.rank_before ws) full) ∧
  trending_words ["a b"; "b a"] = [("a", 2); ("b", 2)] ∧
  trending_words ["B http://x a"; "a  httpd B b"] = [("B", 2); ("a", 2); ("b", 1)].
Proof.
  intros ws. split_and!.
  - apply tokenized_iff.
  - apply startswith_spec.
  - apply words_kept.
  - apply words_of_tokens.
  - apply elem_of_words.
  - set (le := λ a b : string * nat, (b.2 <=? a.2)%nat).
    exists (insertion_sort le (Counter.of_list ws)). split_and!.
    + done.
    + rewrite insertion_sort_perm, of_list_keys. apply NoDup_nub.
    + intros w n. rewrite insertion_sort_perm. apply elem_of_of_list.
    + eapply StronglySorted_weaken;
        [| apply (insertion_sort_rank le
                    (λ a b, Counter.first_index a.1 ws < Counter.first_index b.1 ws));
           [apply count_order_total | apply count_order_trans |]].
      * intros a b [Hab Hpos]. unfold Counter.rank_before. unfold le in *.
        apply Nat.leb_le in Hab.
        destruct (decide (b.2 < a.2)) as [? | Hge]; [by left | right].
        split; [lia |]. apply Hpos, Nat.leb_le. lia.
      * rewrite of_list_tabulated.
        eapply StronglySorted_fmap; [| apply first_index_nub_sorted].
        by intros a b.
  - reflexivity.
  - reflexivity.
Qed.

End trend_facts.

(** ** Aggregates (lines 105-107) *)
Section aggregate_facts.

Lemma occurrences_fmap {A K} `{EqDecision K} (f : A → K) (k : K) (l : list A) :
  Counter.occurrences k (f <$> l) = length (filter (λ r, f r = k) l).
Proof.
  unfold Counter.occurrences. induction l as [|x l IH]; [done |].
  rewrite fmap_cons, !filter_cons. destruct (decide (f x = k)); simpl; by rewrite IH.
Qed.

Lemma counts_get (df : list scored) (l : sentiment) :
  Counter.get (counts df) l 0 = length (filter (λ r, Sentiment r = l) df).
Proof. unfold counts, value_counts. by rewrite get_of_list, occurrences_fmap. Qed.

Lemma label_partition (df : list scored) :
  length (filter (λ r, Sentiment r = Positive) df) +
  length (filter (λ r, Sentiment r = Negative) df) +
  length (filter (λ r, Sentiment r = Neutral) df) = length df.
Proof.
  induction df as [|r df IH]; [done |].
  rewrite !filter_cons. destruct (Sentiment r); simpl; lia.
Qed.

(** C5. On a classified subset that is not empty, [total] is the number of
    records, [avg_pol] is the sum of the polarities divided by that number,
    and [counts] gives for each label the number of records carrying it (the
    three of them adding up to the total). *)
Theorem aggregates_of_classified (df : list scored) :
  df ≠ [] →
  total df = length df ∧
  (avg_pol df == Qsum (Polarity <$> df) / inject_Z (Z.of_nat (length df)))%Q ∧
  (avg_pol df * inject_Z (Z.of_nat (length df)) == Qsum (Polarity <$> df))%Q ∧
  (∀ l, Counter.get (counts df) l 0 = length (filter (λ r, Sentiment r = l) df)) ∧
  Counter.get (counts df) Positive 0 + Counter.get (counts df) Negative 0 +
    Counter.get (counts df) Neutral 0 = total df.
Proof.
  intros Hne. split_and!.
  - done.
  - unfold avg_pol, mean. by rewrite length_fmap.
  - unfold avg_pol, mean. rewrite length_fmap, Qmult_comm. apply Qmult_div_r.
    destruct df; [done |]. by intros ?.
  - apply counts_get.
  - rewrite !counts_get. apply label_partition.
Qed.

(** Polarities 0.2, -0.4, 0.0 at threshold 0.1: one record per label, and a
    mean of -1/15, which is -0.0667 to four places. *)
Lemma aggregates_of_classified_witness :
  Samples.three ≠ [] ∧
  Polarity <$> Samples.three = [2 # 10; - (4 # 10); 0]%Q ∧
  total Samples.three = 3 ∧
  Counter.get (counts Samples.three) Positive 0 = 1 ∧
  Counter.get (counts Samples.three) Negative 0 = 1 ∧
  Counter.get (counts Samples.three) Neutral 0 = 1 ∧
  (avg_pol Samples.three == - (1 # 15))%Q ∧
  (- (66675 # 1000000) < avg_pol Samples.three)%Q ∧
  (avg_pol Samples.three < - (66665 # 1000000))%Q.
Proof.
  assert (Hne : Samples.three ≠ []) by done.
  destruct (aggregates_of_classified Samples.three Hne) as (Ht & Hm & _ & Hc & _).
  split_and!; [done | done | by rewrite Ht | by rewrite Hc ..
              | by rewrite Hm | by rewrite Hm | by rewrite Hm].
Defined.

End aggregate_facts.

(** ** Top positive and top negative (lines 150 and 153) *)
Section rank_facts.

Lemma sort_values_by_polarity `{SortKind} (asc : bool) (rows : list scored) :
  StronglySorted
    (λ a b, if asc then (Polarity a <= Polarity b)%Q
            else (Polarity b <= Polarity a)%Q)
    (Frame.sort_values by_polarity asc rows).
Proof.
  destruct asc.
  - eapply StronglySorted_weaken;
      [| apply sort_values_ascending;
         [apply by_polarity_total | apply by_polarity_trans]].
    intros a b. unfold by_polarity. by rewrite Qle_bool_iff.
  - eapply StronglySorted_weaken;
      [| apply sort_values_descending;
         [apply by_polarity_total | apply by_polarity_trans]].
    intros a b. unfold by_polarity. by rewrite Qle_bool_iff.
Qed.

Lemma ranked_spec `{SortKind} (label : sentiment) (asc : bool) (k : Z) (df : list scored) :
  (0 ≤ k)%Z →
  ∃ s, ranked label asc k df = take (Z.to_nat k) s ∧
       s ≡ₚ filter (λ r, Sentiment r = label) df ∧
       StronglySorted
         (λ a b, if asc then (Polarity a <= Polarity b)%Q
                 else (Polarity b <= Polarity a)%Q) s.
Proof.
  intros Hk.
  exists (Frame.sort_values by_polarity asc (filter (λ r, Sentiment r = label) df)).
  split_and!.
  - unfold ranked. by rewrite head_nonneg.
  - apply sort_values_perm.
  - apply sort_values_by_polarity.
Qed.

Lemma ranked_all `{SortKind} (label : sentiment) (asc : bool) (k : Z) (df : list scored) :
  (Z.of_nat (length (filter (λ r, Sentiment r = label) df)) ≤ k)%Z →
  ranked label asc k df ≡ₚ filter (λ r, Sentiment r = label) df.
Proof.
  intros Hk. unfold ranked. rewrite head_all; [apply sort_values_perm |].
  by rewrite sort_values_perm.
Qed.

Lemma ranked_stable (label : sentiment) (asc : bool) (k : Z) (df : list scored) :
  (0 ≤ k)%Z →
  ∃ s, @ranked stable_kind label asc k df = take (Z.to_nat k) s ∧
       s ≡ₚ filter (λ r, Sentiment r = label) df ∧
       StronglySorted
         (λ a b, if asc then (Polarity a <= Polarity b)%Q
                 else (Polarity b <= Polarity a)%Q) s ∧
       ∀ p, filter (λ r, Qeq_bool (Polarity r) p) s =
            filter (λ r, Qeq_bool (Polarity r) p)
              (filter (λ r, Sentiment r = label) df).
Proof.
  intros Hk.
  exists (@Frame.sort_values stable_kind _ by_polarity asc
            (filter (λ r, Sentiment r = label) df)).
  split_and!;
    [unfold ranked; by rewrite head_nonneg | apply sort_values_perm
    | apply sort_values_by_polarity |].
  intros p. apply stable_sort_values_filter.
  intros x y Hx%Is_true_true%Qeq_bool_iff Hy%Is_true_true%Qeq_bool_iff.
  unfold by_polarity. apply Qle_bool_iff. rewrite Hx, Hy. apply Qle_refl.
Qed.

(** C3, as the script has it. The top-positive list is drawn from the
    records labelled Positive only, and the top-negative list from those
    labelled Negative only: for every cut [k] that is not negative, the list
    is the first [k] of a rearrangement of those records sorted by polarity
    (descending for positive, ascending for negative), and it is all of them
    when there are at most [k]. The script cuts at 5. The order among equal
    polarities is whatever the sort leaves: under a stable sort the records
    of one polarity stay in the order the frame has them, which for the
    stored result is the order of time and not that of the corpus; under
    another sort they need not. Records t1, t2 of polarity 0.5 and t3 of
    polarity 0.9, in this order and cut at 2, give t3, t1 under the stable
    sort and t3, t2 under the one that reverses equal keys. *)
Theorem ranked_lists_by_label `{SortKind} (df : list scored) (k : Z) :
  (0 ≤ k)%Z →
  (∃ s, ranked Positive false k df = take (Z.to_nat k) s ∧
        s ≡ₚ filter (λ r, Sentiment r = Positive) df ∧
        StronglySorted (λ a b, (Polarity b <= Polarity a)%Q) s) ∧
  (∃ s, ranked Negative true k df = take (Z.to_nat k) s ∧
        s ≡ₚ filter (λ r, Sentiment r = Negative) df ∧
        StronglySorted (λ a b, (Polarity a <= Polarity b)%Q) s) ∧
  ((Z.of_nat (length (filter (λ r, Sentiment r = Positive) df)) ≤ k)%Z →
   ranked Positive false k df ≡ₚ filter (λ r, Sentiment r = Positive) df) ∧
  ((Z.of_nat (length (filter (λ r, Sentiment r = Negative) df)) ≤ k)%Z →
   ranked Negative true k df ≡ₚ filter (λ r, Sentiment r = Negative) df) ∧
  top_positive df = ranked Positive false 5 df ∧
  top_negative df = ranked Negative true 5 df ∧
  (∀ label asc,
     ∃ s, @ranked stable_kind label asc k df = take (Z.to_nat k) s ∧
          s ≡ₚ filter (λ r, Sentiment r = label) df ∧
          StronglySorted
            (λ a b, if asc then (Polarity a <= Polarity b)%Q
                    else (Polarity b <= Polarity a)%Q) s ∧
          ∀ p, filter (λ r, Qeq_bool (Polarity r) p) s =
               filter (λ r, Qeq_bool (Polarity r) p)
                 (filter (λ r, Sentiment r = label) df)) ∧
  (text ∘ origin) <$> @ranked stable_kind Positive false 2 Samples.podium
    = ["t3"; "t1"] ∧
  (text ∘ origin) <$> @ranked reversing_kind Positive false 2 Samples.podium
    = ["t3"; "t2"].
Proof.
  intros Hk. split_and!.
  - apply (ranked_spec Positive false k df Hk).
  - apply (ranked_spec Negative true k df Hk).
  - apply ranked_all.
  - apply ranked_all.
  - done.
  - done.
  - intros label asc. by apply ranked_stable.
  - reflexivity.
  - reflexivity.
Qed.

(** Records t1, t2 of polarity 0.5 and t3 of polarity 0.9, cut at 2: the
    list is the first two of the records sorted by polarity, and the two
    records of polarity 0.5 are in the order of the frame. *)
Lemma ranked_lists_by_label_witness :
  (0 ≤ 2)%Z ∧
  (∃ s, @ranked stable_kind Positive false 2 Samples.podium = take 2 s ∧
        s ≡ₚ filter (λ r, Sentiment r = Positive) Samples.podium ∧
        StronglySorted (λ a b, (Polarity b <= Polarity a)%Q) s ∧
        (text ∘ origin) <$> filter (λ r, Qeq_bool (Polarity r) (1 # 2)) s
          = ["t1"; "t2"]) ∧
  (text ∘ origin) <$> @ranked stable_kind Positive false 2 Samples.podium = ["t3"; "t1"] ∧
  (text ∘ origin) <$> @ranked reversing_kind Positive false 2 Samples.podium = ["t3"; "t2"].
Proof.
  assert (H2 : (0 ≤ 2)%Z) by lia.
  destruct (@ranked_lists_by_label stable_kind Samples.podium 2 H2)
    as (_ & _ & _ & _ & _ & _ & Hstable & Ha & Hb).
  split_and!; [done | | done | done].
  destruct (Hstable Positive false) as (s & Hs & Hperm & Hsorted & Hties).
  exists s. split_and!; [done | done | done |]. by rewrite Hties.
Defined.

(** C3, as the specification words it, fails on the frame a run leaves for
    the corpus t1 (newer), t2 (older), t0 (neutral): the three records are fewer than
    5, yet the neutral one is not returned, and t2 comes before t1 although
    t1 is earlier in the corpus and their polarities are equal. *)
Lemma top_positive_is_not_the_claimed_ranking :
  @top_positive stable_kind Samples.late_first_result = [Samples.r2; Samples.r1] ∧
  @top_positive reversing_kind Samples.late_first_result = [Samples.r1; Samples.r2] ∧
  claimed_top_positive 5 Samples.late_first_result = [Samples.r1; Samples.r2; Samples.r3] ∧
  (Polarity Samples.r1 == Polarity Samples.r2)%Q ∧
  idx (origin Samples.r1) < idx (origin Samples.r2) ∧
  @top_positive stable_kind Samples.late_first_result
    ≠ claimed_top_positive 5 Samples.late_first_result ∧
  @top_positive reversing_kind Samples.late_first_result
    ≠ claimed_top_positive 5 Samples.late_first_result.
Proof. by vm_compute. Qed.

End rank_facts.

(** ** The store and the session *)
Section store_facts.

Lemma alloc_spec (f : frame) (h : gmap nat frame) :
  ∃ r, alloc f h = (r, <[r := f]> h) ∧ h !! r = None.
Proof.
  exists (fresh (dom h)). split; [done |].
  apply not_elem_of_dom, is_fresh.
Qed.

Lemma corpus_Some w rows :
  corpus w = Some rows ↔ store w !! tweets_df (session w) = Some (Raw rows).
Proof.
  unfold corpus. destruct (store w !! tweets_df (session w)) as [[?|?]|]; naive_solver.
Qed.

Lemma result_Some w df :
  result w = Some df ↔ store w !! analysis_df (session w) = Some (Analysed df).
Proof.
  unfold result. destruct (store w !! analysis_df (session w)) as [[?|?]|]; naive_solver.
Qed.

Lemma initial_well_formed demo : well_formed (initial demo).
Proof. split; eexists; [apply corpus_Some | apply result_Some]; done. Qed.

Lemma extends_insert_fresh w r f s' :
  store w !! r = None → extends w (World (<[r := f]> (store w)) s').
Proof.
  intros Hr r' f' Hf. simpl in *. rewrite lookup_insert_ne; [done |].
  intros ->. by rewrite Hr in Hf.
Qed.

Lemma extends_corpus w w' :
  extends w w' → tweets_df (session w') = tweets_df (session w) →
  is_Some (corpus w) → corpus w' = corpus w.
Proof.
  intros Hext Hs [rows Hrows]. rewrite Hrows.
  apply corpus_Some. rewrite Hs. by apply Hext, corpus_Some.
Qed.

Lemma extends_result w w' :
  extends w w' → analysis_df (session w') = analysis_df (session w) →
  is_Some (result w) → result w' = result w.
Proof.
  intros Hext Hs [df Hdf]. rewrite Hdf.
  apply result_Some. rewrite Hs. by apply Hext, result_Some.
Qed.

Lemma add_tweet_not_clicked now c w :
  add_clicked c = false → add_tweet now c w = Some (w, []).
Proof. unfold add_tweet. by intros ->. Qed.

Lemma extends_trans w1 w2 w3 : extends w1 w2 → extends w2 w3 → extends w1 w3.
Proof. intros H12 H23 r f Hr. by apply H23, H12. Qed.

(** The ways a run can end. *)
Lemma run_analysis_cases `{SortKind} `{Engine} polarity c w w' out :
  run_analysis polarity c w = Some (w', out) →
  (run_clicked c || auto_refresh c = false ∧ w' = w ∧ out = []) ∨
  ∃ rows sel df,
    run_clicked c || auto_refresh c = true ∧
    corpus w = Some rows ∧
    keyword_filter rows (keyword c) (tweet_count c) = Some sel ∧
    store w !! df = None ∧
    ((sel = [] ∧
      w' = World (<[df := Raw []]> (store w)) (session w) ∧
      out = [error "No tweets found for this keyword!"]) ∨
     (sel ≠ [] ∧ ∃ df',
        df' ≠ df ∧ store w !! df' = None ∧
        w' = World
               (<[df' := Analysed (Frame.sort_values by_time true
                           (with_columns polarity (sentiment_threshold c) <$> sel))]>
                  (<[df := Analysed (with_columns polarity (sentiment_threshold c) <$> sel)]>
                     (store w)))
               (Session (tweets_df (session w)) df') ∧
        out = [])).
Proof.
  unfold run_analysis. destruct (run_clicked c || auto_refresh c) eqn:Htrig.
  2:{ intros [= <- <-]. by left. }
  destruct (store w !! tweets_df (session w)) as [[rows|?]|] eqn:Hrows; [| done ..].
  destruct (keyword_filter rows (keyword c) (tweet_count c)) as [sel|] eqn:Hsel;
    [cbn [mbind option_bind] | done].
  destruct (alloc_spec (Raw sel) (store w)) as (df & -> & Hdf).
  intros Hrun. right. exists rows, sel, df.
  split_and!; [done | by apply corpus_Some | done | done |].
  destruct sel as [|t sel]; cbn [empty] in Hrun.
  - left. by injection Hrun as <- <-.
  - right. split; [done |].
    rewrite insert_insert_eq in Hrun.
    match type of Hrun with
    | context [alloc ?f ?h] => destruct (alloc_spec f h) as (df' & Hal & Hdf')
    end.
    rewrite Hal in Hrun. injection Hrun as <- <-.
    exists df'. split_and!; [| | done | done].
    + intros ->. by rewrite lookup_insert_eq in Hdf'.
    + destruct (decide (df = df')) as [-> | Hne];
        [by rewrite lookup_insert_eq in Hdf' | by rewrite lookup_insert_ne in Hdf'].
Qed.

End store_facts.

Lemma filter_none {A} (P : A → Prop) `{∀ x, Decision (P x)} (l : list A) :
  (∀ x, x ∈ l → ¬ P x) → filter P l = [].
Proof.
  induction l as [|x l IH]; intros Hl; [done |].
  rewrite filter_cons, decide_False by (apply Hl, elem_of_cons; by left).
  apply IH. intros y Hy. apply Hl, elem_of_cons. by right.
Qed.

(** ** One run (lines 83-98) *)
Section run_facts.
Context `{SortKind} `{Engine} (polarity : string → Q).

(** A run gets through whenever the corpus is there and the keyword
    compiles. *)
Lemma run_analysis_total c w rows q :
  corpus w = Some rows → re_compile (keyword c) = Some q →
  ∃ w' out, run_analysis polarity c w = Some (w', out).
Proof.
  intros Hrows%corpus_Some Hq. unfold run_analysis.
  destruct (run_clicked c || auto_refresh c); [| eauto].
  rewrite Hrows. unfold keyword_filter, Frame.text_contains. rewrite Hq.
  cbn [mbind option_bind fmap option_fmap option_map].
  destruct (alloc (Raw _) _) as [df h1].
  destruct (empty _); [eauto |].
  destruct (alloc (Analysed _) _) as [df' h3]. eauto.
Qed.

Lemma run_analysis_extends c w w' out :
  run_analysis polarity c w = Some (w', out) →
  extends w w' ∧ tweets_df (session w') = tweets_df (session w).
Proof.
  intros [(_ & -> & _) | (rows & sel & df & _ & _ & _ & Hdf & Hcase)]%run_analysis_cases.
  { split; [by intros r f | done]. }
  destruct Hcase as [(_ & -> & _) | (_ & df' & Hne & Hdf' & -> & _)].
  - split; [by apply extends_insert_fresh | done].
  - split; [| done]. intros r f Hr. simpl.
    rewrite !lookup_insert_ne; [done | |]; intros ->; simpl in *; congruence.
Qed.

Lemma run_analysis_well_formed c w w' out :
  well_formed w → run_analysis polarity c w = Some (w', out) → well_formed w'.
Proof.
  intros [Hc Hr] Hrun.
  destruct (run_analysis_extends _ _ _ _ Hrun) as [Hext Ht].
  split; [by rewrite (extends_corpus w w') |].
  apply run_analysis_cases in Hrun
    as [(_ & -> & _) | (rows & sel & df & _ & _ & _ & Hdf & Hcase)]; [done |].
  destruct Hcase as [(_ & -> & _) | (_ & df' & Hne & Hdf' & -> & _)].
  - rewrite (extends_result w); [done | by apply extends_insert_fresh | done..].
  - eexists. apply result_Some. simpl. apply lookup_insert_eq.
Qed.

Lemma run_analysis_corpus c w w' out :
  run_analysis polarity c w = Some (w', out) → corpus w' = corpus w.
Proof.
  intros Hrun. destruct (run_analysis_extends _ _ _ _ Hrun) as [Hext Ht].
  apply run_analysis_cases in Hrun
    as [(_ & -> & _) | (rows & ? & ? & _ & Hrows & _)]; [done |].
  apply extends_corpus; [done | done | by eexists].
Qed.


Lemma run_analysis_match c w rows q t :
  corpus w = Some rows → re_compile (keyword c) = Some q →
  t ∈ rows → re_search q (text t) = true → (0 < tweet_count c)%Z →
  run_clicked c || auto_refresh c = true →
  ∃ w', run_analysis polarity c w = Some (w', []).
Proof.
  intros Hrows Hq Ht Hm Hpos Htrig.
  destruct (run_analysis_total c w rows q Hrows Hq) as (w' & out & Hrun).
  exists w'. rewrite Hrun. do 2 f_equal.
  apply run_analysis_cases in Hrun
    as [(Hno & _) | (rows' & sel & df & _ & Hrows' & Hsel & Hdf & Hcase)];
    [congruence |].
  destruct Hcase as [(Hnil & _ & Hout) | (_ & df' & _ & _ & _ & Hout)]; [| done].
  exfalso. rewrite Hrows in Hrows'. injection Hrows' as <-.
  unfold keyword_filter, Frame.text_contains in Hsel. rewrite Hq in Hsel.
  simpl in Hsel. injection Hsel as Hsel. subst sel.
  assert (Hin : t ∈ filter (λ r, re_search q (text r)) rows).
  { apply list_elem_of_filter. split; [by apply Is_true_true | done]. }
  assert (Hn : (0 ≤ tweet_count c)%Z) by lia.
  pose proof (head_length (tweet_count c)
                (filter (λ r, re_search q (text r)) rows) Hn) as Hlen.
  rewrite Hnil in Hlen. simpl in Hlen.
  destruct (filter (λ r, re_search q (text r)) rows) as [|x l];
    [by apply elem_of_nil in Hin |]. simpl in Hlen. lia.
Qed.

Lemma after_run_returned c w w' out :
  run_analysis polarity c w = Some (w', out) → after_run polarity c w = w'.
Proof. unfold after_run. by intros ->. Qed.

Lemma after_run_extends c w :
  extends w (after_run polarity c w) ∧
  tweets_df (session (after_run polarity c w)) = tweets_df (session w).
Proof.
  unfold after_run.
  destruct (run_analysis polarity c w) as [[w' out]|] eqn:Hrun.
  - by apply (run_analysis_extends c w w' out).
  - split; [by intros r f | done].
Qed.

Lemma after_run_corpus c w : corpus (after_run polarity c w) = corpus w.
Proof.
  unfold after_run.
  destruct (run_analysis polarity c w) as [[w' out]|] eqn:Hrun; [| done].
  by apply (run_analysis_corpus c w w' out).
Qed.

(** C8. Every run leaves the corpus as it was, whether it stores a result,
    reports that nothing matched, or is stopped by the exception of line 85:
    the session still refers to the same corpus object, every object that
    existed before the run is unchanged (the classified rows live in new
    objects), and so the records of the corpus and their order are the same
    after the run, and after a second run with other settings. A run that
    returns is one such run; and a run returns whenever the corpus is in
    place and the keyword compiles. *)
Theorem run_leaves_corpus_unchanged c w :
  tweets_df (session (after_run polarity c w)) = tweets_df (session w) ∧
  extends w (after_run polarity c w) ∧
  corpus (after_run polarity c w) = corpus w ∧
  (∀ c2, corpus (after_run polarity c2 (after_run polarity c w)) = corpus w) ∧
  (∀ w' out, run_analysis polarity c w = Some (w', out) →
             after_run polarity c w = w' ∧ extends w w' ∧ corpus w' = corpus w) ∧
  (∀ rows q, corpus w = Some rows → re_compile (keyword c) = Some q →
             ∃ w' out, run_analysis polarity c w = Some (w', out)).
Proof.
  destruct (after_run_extends c w) as [Hext Ht].
  split_and!; [done | done | apply after_run_corpus | | |].
  - intros c2. by rewrite !after_run_corpus.
  - intros w' out Hrun. rewrite <- (after_run_returned c w w' out Hrun).
    split_and!; [done | done | apply after_run_corpus].
  - intros rows q. apply run_analysis_total.
Qed.

Lemma with_columns_time thr (sel : list tweet) :
  Forall (λ r, Time r = created_at (origin r)) (with_columns polarity thr <$> sel).
Proof. apply Forall_fmap, Forall_true. by intros r. Qed.

(** C9. A run that matches some record stores a result that is sorted by
    [created_at], ascending; the result holds the classified rows of the
    selection, and nothing else. Every keyword that compiles and finds a
    record gives such a run, when at least one row is asked for. *)
Theorem run_result_sorted_by_created_at c w :
  run_clicked c || auto_refresh c = true →
  (∀ w', run_analysis polarity c w = Some (w', []) →
    ∃ rows sel df,
      corpus w = Some rows ∧
      keyword_filter rows (keyword c) (tweet_count c) = Some sel ∧
      result w' = Some df ∧
      df ≡ₚ with_columns polarity (sentiment_threshold c) <$> sel ∧
      StronglySorted (λ a b, (created_at (origin a) ≤ created_at (origin b))%Z) df) ∧
  (∀ rows q t,
     corpus w = Some rows → re_compile (keyword c) = Some q →
     t ∈ rows → re_search q (text t) = true → (0 < tweet_count c)%Z →
     ∃ w', run_analysis polarity c w = Some (w', [])).
Proof.
  intros Htrig. split.
  2:{ intros rows q t Hrows Hq Ht Hm Hpos. by eapply run_analysis_match. }
  intros w'
    [(Hno & _) | (rows & sel & df & _ & Hrows & Hsel & Hdf & Hcase)]%run_analysis_cases;
    [congruence |].
  destruct Hcase as [(_ & _ & ?) | (_ & df' & Hne & Hdf' & -> & _)]; [done |].
  exists rows, sel,
    (Frame.sort_values by_time true
       (with_columns polarity (sentiment_threshold c) <$> sel)).
  split_and!; [done | done | | |].
  - apply result_Some. apply lookup_insert_eq.
  - apply sort_values_perm.
  - eapply StronglySorted_weaken_elem;
      [| apply (sort_values_ascending by_time);
         [apply by_time_total | apply by_time_trans]].
    intros a b Ha Hb Hab. unfold by_time in Hab. apply Z.leb_le in Hab.
    pose proof (with_columns_time (sentiment_threshold c) sel) as Htime.
    rewrite Forall_forall in Htime.
    rewrite (sort_values_perm by_time true) in Ha, Hb.
    by rewrite <- !Htime.
Qed.

(** What the page shows depends on the result entry alone. *)
Lemma main_content_result w w' :
  store w' !! analysis_df (session w') = store w !! analysis_df (session w) →
  main_content w' = main_content w.
Proof. unfold main_content. by intros ->. Qed.

Lemma main_content_shows w df :
  result w = Some df → df ≠ [] → main_content w = Some (Some (summarize df)).
Proof.
  intros Hdf%result_Some Hne. unfold main_content. rewrite Hdf. simpl.
  by destruct df.
Qed.

Lemma failed_run_result c w w' msg :
  well_formed w →
  run_analysis polarity c w = Some (w', [error msg]) →
  session w' = session w ∧
  result w' = result w ∧
  main_content w' = main_content w.
Proof.
  intros [_ [df0 Hres]] Hrun.
  destruct (run_analysis_extends _ _ _ _ Hrun) as [Hext _].
  apply run_analysis_cases in Hrun
    as [(_ & _ & ?) | (rows & sel & df & _ & _ & _ & Hdf & Hcase)]; [done |].
  destruct Hcase as [(_ & -> & _) | (_ & df' & _ & _ & _ & ?)]; [| done].
  split_and!; [done | |].
  - apply extends_result; [done | done | by eexists].
  - apply main_content_result. simpl.
    apply result_Some in Hres. rewrite Hres. by apply Hext.
Qed.

Lemma keyword_filter_no_match rows kw q :
  re_compile kw = Some q →
  (∀ r, r ∈ rows → re_search q (text r) = false) →
  ∀ n, keyword_filter rows kw n = Some [].
Proof.
  intros Hq Hnone n. unfold keyword_filter, Frame.text_contains.
  rewrite Hq. simpl. f_equal.
  rewrite filter_none; [apply head_nil |].
  intros r Hr. rewrite (Hnone r Hr). by intros ?.
Qed.

Lemma run_analysis_no_match c w rows :
  well_formed w →
  run_clicked c || auto_refresh c = true →
  corpus w = Some rows →
  keyword_filter rows (keyword c) (tweet_count c) = Some [] →
  ∃ w', run_analysis polarity c w =
          Some (w', [error "No tweets found for this keyword!"]) ∧
        session w' = session w ∧
        result w' = result w ∧
        main_content w' = main_content w ∧
        ∀ r df, store w' !! r = Some (Analysed df) → store w !! r = Some (Analysed df).
Proof.
  intros Hwf Htrig Hrows%corpus_Some Hsel.
  destruct (alloc_spec (Raw []) (store w)) as (df & Hal & Hdf).
  exists (World (<[df := Raw []]> (store w)) (session w)).
  assert (Hrun : run_analysis polarity c w =
                 Some (World (<[df := Raw []]> (store w)) (session w),
                       [error "No tweets found for this keyword!"])).
  { unfold run_analysis. rewrite Htrig, Hrows, Hsel.
    cbn [mbind option_bind]. by rewrite Hal. }
  destruct (failed_run_result c w _ _ Hwf Hrun) as (_ & Hr & Hm).
  split_and!; [done | done | done | done |].
  intros r df' Hr'. simpl in Hr'.
  destruct (decide (df = r)) as [-> | Hne].
  - by rewrite lookup_insert_eq in Hr'.
  - by rewrite lookup_insert_ne in Hr'.
Qed.

Lemma main_content_of_result w df :
  result w = Some df →
  main_content w = Some (if decide (df = []) then None else Some (summarize df)).
Proof.
  intros Hdf. destruct (decide (df = [])) as [-> | Hne].
  - apply result_Some in Hdf. unfold main_content. by rewrite Hdf.
  - by apply main_content_shows.
Qed.

(** C10. A run that ends with the error notice leaves the stored result as
    it was: the session refers to the same result object, the object is
    unchanged, and the page shows what it showed before, the summary of the
    earlier result when there was one. Every keyword that compiles and
    finds no record of the corpus gives such a run. *)
Theorem failed_run_keeps_previous_result c w :
  well_formed w →
  (∀ w' msg,
     run_analysis polarity c w = Some (w', [error msg]) →
     analysis_df (session w') = analysis_df (session w) ∧
     result w' = result w ∧
     main_content w' = main_content w ∧
     ∀ df, result w = Some df → df ≠ [] →
           main_content w' = Some (Some (summarize df))) ∧
  (∀ rows q,
     run_clicked c || auto_refresh c = true →
     corpus w = Some rows → re_compile (keyword c) = Some q →
     (∀ r, r ∈ rows → re_search q (text r) = false) →
     ∃ w', run_analysis polarity c w =
             Some (w', [error "No tweets found for this keyword!"])).
Proof.
  intros Hwf. split.
  - intros w' msg Hrun.
    destruct (failed_run_result c w w' msg Hwf Hrun) as (Hs & Hr & Hm).
    split_and!; [by rewrite Hs | done | done |].
    intros df Hdf Hne. rewrite Hm. by apply main_content_shows.
  - intros rows q Htrig Hrows Hq Hnone.
    destruct (run_analysis_no_match c w rows Hwf Htrig Hrows
                (keyword_filter_no_match rows (keyword c) q Hq Hnone _))
      as (w' & Hrun & _).
    by exists w'.
Qed.


Lemma main_content_well_formed w :
  well_formed w → is_Some (main_content w).
Proof.
  intros [_ [df Hdf]]. rewrite (main_content_of_result w df Hdf). by eexists.
Qed.

(** One execution of the script with Run pressed, Add not pressed and a
    keyword without match: the error notice, and the page as it was. *)
Lemma script_no_match now c w rows q :
  well_formed w →
  add_clicked c = false →
  run_clicked c || auto_refresh c = true →
  corpus w = Some rows →
  re_compile (keyword c) = Some q →
  (∀ r, r ∈ rows → re_search q (text r) = false) →
  ∃ w' shown,
    script polarity now c w =
      Some (w', [error "No tweets found for this keyword!"], shown) ∧
    main_content w = Some shown ∧
    result w' = result w.
Proof.
  intros Hwf Hadd Htrig Hrows Hq Hnone.
  destruct (run_analysis_no_match c w rows Hwf Htrig Hrows)
    as (w' & Hrun & _ & Hr & Hm & _); [by eapply keyword_filter_no_match |].
  destruct (main_content_well_formed w Hwf) as [shown Hshown].
  exists w', shown. split_and!; [| done | done].
  unfold script. rewrite (add_tweet_not_clicked now c w Hadd).
  cbn [mbind option_bind]. rewrite Hrun. cbn [mbind option_bind].
  rewrite Hm, Hshown. done.
Qed.

End run_facts.

(** ** Adding a tweet (lines 76-78) *)
Section add_facts.

Lemma truthy_nonempty s : Text.truthy s = true ↔ s ≠ EmptyString.
Proof.
  unfold Text.truthy. rewrite negb_true_iff. apply String.eqb_neq.
Qed.

Lemma concat_ignore_index_lookup frames i :
  Frame.concat_ignore_index frames !! i =
  (λ r, Tweet i (created_at r) (text r)) <$> concat frames !! i.
Proof. unfold Frame.concat_ignore_index. apply list_lookup_imap. Qed.

Lemma concat_ignore_index_labelled frames :
  labelled (Frame.concat_ignore_index frames).
Proof.
  intros i r. rewrite concat_ignore_index_lookup.
  destruct (concat frames !! i); [| done]. by intros [= <-].
Qed.

Lemma concat_ignore_index_length frames :
  length (Frame.concat_ignore_index frames) = length (concat frames).
Proof. unfold Frame.concat_ignore_index. apply length_imap. Qed.

Lemma concat_ignore_index_columns frames :
  (λ r, (created_at r, text r)) <$> Frame.concat_ignore_index frames =
  (λ r, (created_at r, text r)) <$> concat frames.
Proof.
  apply list_eq. intros i.
  rewrite !list_lookup_fmap, concat_ignore_index_lookup.
  by destruct (concat frames !! i).
Qed.

Lemma concat_ignore_index_append rows t :
  labelled rows →
  Frame.concat_ignore_index [rows; [t]] =
  rows ++ [Tweet (length rows) (created_at t) (text t)].
Proof.
  intros Hl. apply list_eq. intros i. rewrite concat_ignore_index_lookup.
  simpl.
  destruct (decide (i < length rows)) as [Hi | Hi].
  - rewrite !lookup_app_l by done.
    destruct (rows !! i) as [r|] eqn:Hr; [| done]. simpl.
    rewrite <- (Hl i r Hr). by destruct r.
  - rewrite !lookup_app_r by lia.
    destruct (i - length rows) as [|j] eqn:Hj; [| done].
    simpl. do 2 f_equal. lia.
Qed.

Lemma add_tweet_empty now c w :
  custom_tweet c = EmptyString → add_tweet now c w = Some (w, []).
Proof. unfold add_tweet. intros ->. by rewrite andb_false_r. Qed.

Lemma add_tweet_nonempty now c w rows :
  corpus w = Some rows → add_clicked c = true → custom_tweet c ≠ EmptyString →
  ∃ w' new,
    add_tweet now c w = Some (w', [success "Tweet added!"]) ∧
    corpus w' = Some new ∧
    new = Frame.concat_ignore_index [rows; [Tweet 0 now (custom_tweet c)]] ∧
    analysis_df (session w') = analysis_df (session w) ∧
    extends w w'.
Proof.
  intros Hrows%corpus_Some Hclick Hne%truthy_nonempty.
  unfold add_tweet. rewrite Hclick, Hne, Hrows. cbn [andb].
  set (new := Frame.concat_ignore_index [rows; [Tweet 0 now (custom_tweet c)]]).
  destruct (alloc_spec (Raw new) (store w)) as (r & -> & Hr).
  eexists _, new. split_and!; [done | | done | done |].
  - apply corpus_Some. apply lookup_insert_eq.
  - by apply extends_insert_fresh.
Qed.

(** C6, as the script has it. With Add pressed: on the empty text nothing
    happens (the corpus is the same, and no notice is given); on any other
    text, blank ones included, the session gets a new corpus frame that holds
    the old rows in their order followed by the new record, which sits at the
    next position and is labelled with it. The stored result and every
    earlier object are untouched. *)
Theorem add_tweet_appends_unless_empty now c w rows :
  corpus w = Some rows → add_clicked c = true →
  (custom_tweet c = EmptyString → add_tweet now c w = Some (w, [])) ∧
  (custom_tweet c ≠ EmptyString →
   ∃ w' new,
     add_tweet now c w = Some (w', [success "Tweet added!"]) ∧
     corpus w' = Some new ∧
     labelled new ∧
     (λ r, (created_at r, text r)) <$> new =
       ((λ r, (created_at r, text r)) <$> rows) ++ [(now, custom_tweet c)] ∧
     new !! length rows = Some (Tweet (length rows) now (custom_tweet c)) ∧
     (labelled rows → new = rows ++ [Tweet (length rows) now (custom_tweet c)]) ∧
     analysis_df (session w') = analysis_df (session w) ∧
     extends w w').
Proof.
  intros Hrows Hclick. split; [apply add_tweet_empty |].
  intros Hne.
  destruct (add_tweet_nonempty now c w rows Hrows Hclick Hne)
    as (w' & new & Hadd & Hc & -> & Ha & Hext).
  eexists w', _. split_and!; [done | done | | | | | done | done].
  - apply concat_ignore_index_labelled.
  - rewrite concat_ignore_index_columns. simpl. by rewrite fmap_app.
  - rewrite concat_ignore_index_lookup. simpl.
    rewrite lookup_app_r by lia. by rewrite Nat.sub_diag.
  - intros Hl. by apply concat_ignore_index_append.
Qed.

(** Adding the text "hello" to the sample corpus. *)
Lemma add_tweet_appends_unless_empty_witness :
  ∃ w' new,
    add_tweet 7 (Controls "Tesla" 150 (1 # 10) false "hello" true false)
      Samples.late_first_world = Some (w', [success "Tweet added!"]) ∧
    corpus w' = Some new ∧
    new !! 3 = Some (Tweet 3 7 "hello").
Proof.
  destruct (add_tweet_appends_unless_empty 7
              (Controls "Tesla" 150 (1 # 10) false "hello" true false)
              Samples.late_first_world Samples.late_first eq_refl eq_refl)
    as [_ Hadd].
  destruct Hadd as (w' & new & Hrun & Hc & _ & _ & Hlast & _); [done |].
  by exists w', new.
Defined.

(** C6, as the specification words it, fails on a text made of one blank:
    the text is blank, Add is pressed, and the corpus grows by a record with
    that text, under a success notice. *)
Lemma add_tweet_accepts_blank_text :
  Text.blank (custom_tweet Samples.add_blank) ∧
  corpus Samples.late_first_world = Some Samples.late_first ∧
  ∃ w', add_tweet 7 Samples.add_blank Samples.late_first_world =
          Some (w', [success "Tweet added!"]) ∧
        corpus w' = Some (Samples.late_first ++ [Tweet 3 7 " "]).
Proof.
  split_and!; [by repeat constructor | done |].
  eexists. split; reflexivity.
Qed.

Lemma add_tweet_well_formed now c w w' out :
  well_formed w → add_tweet now c w = Some (w', out) → well_formed w'.
Proof.
  intros [[rows Hrows] Hres] Hadd.
  destruct (add_clicked c) eqn:Hclick.
  2:{ rewrite add_tweet_not_clicked in Hadd by done. by injection Hadd as <- _. }
  destruct (decide (custom_tweet c = EmptyString)) as [Heq | Hneq].
  - rewrite (add_tweet_empty now c w Heq) in Hadd. by injection Hadd as <- _.
  - destruct (add_tweet_nonempty now c w rows Hrows Hclick Hneq)
      as (w1 & new & Hrun & Hc & _ & Ha & Hext).
    rewrite Hrun in Hadd. injection Hadd as <- _.
    split; [by eexists |]. by rewrite (extends_result w w1).
Qed.

End add_facts.

(** ** Engines on the fragment

    On a keyword of the fragment every engine selects the same rows: the
    script then runs as it does with the engine of the fragment. *)
Section engine_facts.
Context `{SortKind} (E : Engine) (polarity : string → Q).





End engine_facts.

(** ** An engine with alternation

    The engine of the fragment is not the only one: here is one that knows
    the bar as well. *)
Section alternation_facts.
Import Text Re.

Lemma compile_no_bar pat p :
  compile pat = Some p → "|"%char ∉ list_ascii_of_string pat.
Proof.
  revert p. induction pat as [|c pat IH]; intros p Hp Hin;
    [by apply elem_of_nil in Hin |].
  simpl in Hp, Hin. apply elem_of_cons in Hin as [<- | Hin]; [done |].
  destruct (compile pat) as [p'|]; [by apply (IH p') |].
  by destruct (Ascii.eqb c "."), (special c).
Qed.

Lemma alternatives_go_no_bar cur pat :
  "|"%char ∉ list_ascii_of_string pat → alternatives_go cur pat = [cur +:+ pat].
Proof.
  revert cur. induction pat as [|c pat IH]; intros cur Hbar.
  - by rewrite append_nil_r.
  - simpl in Hbar. apply not_elem_of_cons in Hbar as [Hc Hbar].
    cbn [alternatives_go].
    destruct (Ascii.eqb_spec c "|"%char) as [-> | _]; [done |].
    rewrite (IH _ Hbar), append_assoc. by rewrite append_cons.
Qed.

Lemma alternatives_go_elem cur pat c :
  c ≠ "|"%char →
  c ∈ list_ascii_of_string cur ∨ c ∈ list_ascii_of_string pat →
  ∃ alt, alt ∈ alternatives_go cur pat ∧ c ∈ list_ascii_of_string alt.
Proof.
  intros Hc. revert cur. induction pat as [|d pat IH]; intros cur Hin.
  - destruct Hin as [Hin | Hin]; [| by apply elem_of_nil in Hin].
    exists cur. split; [apply elem_of_cons; by left | done].
  - cbn [alternatives_go].
    destruct (Ascii.eqb_spec d "|"%char) as [-> | Hd].
    + destruct Hin as [Hin | Hin].
      * exists cur. split; [apply elem_of_cons; by left | done].
      * simpl in Hin. apply elem_of_cons in Hin as [? | Hin]; [done |].
        destruct (IH EmptyString) as (alt & Halt & Hin'); [by right |].
        exists alt. split; [apply elem_of_cons; by right | done].
    + apply IH. rewrite chars_append. simpl.
      destruct Hin as [Hin | Hin].
      * left. apply elem_of_app. by left.
      * simpl in Hin. apply elem_of_cons in Hin as [-> | Hin]; [| by right].
        left. apply elem_of_app. right. apply elem_of_cons. by left.
Qed.

Lemma compile_alt_fragment pat p :
  compile pat = Some p →
  ∃ q, compile_alt pat = Some q ∧ ∀ s, search_alt q s = search p s.
Proof.
  intros Hp. exists [p]. split.
  - unfold compile_alt, alternatives.
    rewrite alternatives_go_no_bar by (by eapply compile_no_bar).
    change (EmptyString +:+ pat) with pat. simpl. by rewrite Hp.
  - intros s. unfold search_alt. simpl. apply orb_false_r.
Qed.

Lemma compile_alt_unclosed pat : unclosed pat → compile_alt pat = None.
Proof.
  intros [Hin _]. unfold compile_alt, alternatives.
  destruct (mapM compile (alternatives_go EmptyString pat)) as [q|] eqn:Hq; [| done].
  assert (Hall : is_Some (mapM compile (alternatives_go EmptyString pat)))
    by (by rewrite Hq).
  apply mapM_is_Some_1 in Hall. rewrite Forall_forall in Hall.
  destruct (alternatives_go_elem EmptyString pat "("%char) as (alt & Halt & Hparen);
    [done | by right |].
  destruct (Hall alt Halt) as [p Hp]. simpl in Hp.
  by rewrite (compile_paren alt Hparen) in Hp.
Qed.

End alternation_facts.

Definition alternation_engine : Engine :=
  {| compiled := list (list Re.atom);
     re_compile := Re.compile_alt;
     re_search := Re.search_alt;
     re_fragment := compile_alt_fragment;
     re_unclosed := compile_alt_unclosed |}.


(** ** The sample session, run by run *)

(** The session after a run for keyword t on the sample corpus, and after a
    further run for a keyword without match. *)
Definition after_run_t : world :=
  Eval vm_compute in
    match @run_analysis stable_kind fragment_engine Samples.stub_polarity Samples.run_t
            Samples.late_first_world with
    | Some (w, _) => w
    | None => Samples.late_first_world
    end.

Definition after_run_zzz : world :=
  Eval vm_compute in
    match @run_analysis stable_kind fragment_engine Samples.stub_polarity Samples.run_zzz
            after_run_t with
    | Some (w, _) => w
    | None => after_run_t
    end.

Lemma run_t_succeeds :
  @run_analysis stable_kind fragment_engine Samples.stub_polarity Samples.run_t
    Samples.late_first_world = Some (after_run_t, []).
Proof. by vm_compute. Qed.

Lemma run_zzz_fails :
  @run_analysis stable_kind fragment_engine Samples.stub_polarity Samples.run_zzz after_run_t =
  Some (after_run_zzz, [error "No tweets found for this keyword!"]).
Proof. by vm_compute. Qed.

(** The frame used against the ranking claim is the one the run leaves,
    under either kind of sort. *)
Lemma late_first_result_is_a_run_result :
  result after_run_t = Some Samples.late_first_result ∧
  (λ o : world * list notice, result o.1) <$> @run_analysis reversing_kind fragment_engine Samples.stub_polarity
                          Samples.run_t Samples.late_first_world =
    Some (Some Samples.late_first_result).
Proof. by vm_compute. Qed.

Lemma after_run_t_well_formed : well_formed after_run_t.
Proof. split; eexists; reflexivity. Qed.

(** The same with the engine that knows the bar: the session after a run
    for t1 or t0, and after a further run for zzz or yyy. *)
Definition after_run_bar : world :=
  Eval vm_compute in
    @after_run stable_kind alternation_engine Samples.stub_polarity Samples.run_bar
      Samples.late_first_world.

Definition after_run_bar_none : world :=
  Eval vm_compute in
    @after_run stable_kind alternation_engine Samples.stub_polarity
      Samples.run_bar_none after_run_bar.

Lemma run_bar_succeeds :
  @run_analysis stable_kind alternation_engine Samples.stub_polarity Samples.run_bar
    Samples.late_first_world = Some (after_run_bar, []).
Proof. by vm_compute. Qed.

Lemma run_bar_none_fails :
  @run_analysis stable_kind alternation_engine Samples.stub_polarity
    Samples.run_bar_none after_run_bar =
  Some (after_run_bar_none, [error "No tweets found for this keyword!"]).
Proof. by vm_compute. Qed.

Lemma after_run_bar_well_formed : well_formed after_run_bar.
Proof. split; eexists; reflexivity. Qed.

Lemma run_leaves_corpus_unchanged_witness :
  @run_analysis stable_kind alternation_engine Samples.stub_polarity Samples.run_bar
    Samples.late_first_world = Some (after_run_bar, []) ∧
  corpus after_run_bar = Some Samples.late_first ∧
  corpus (@after_run stable_kind alternation_engine Samples.stub_polarity
            run_bar_strict
            (@after_run stable_kind alternation_engine Samples.stub_polarity
               Samples.run_bar Samples.late_first_world)) = Some Samples.late_first ∧
  corpus (@after_run stable_kind alternation_engine Samples.stub_polarity
            Samples.run_paren Samples.late_first_world) = Some Samples.late_first.
Proof.
  destruct (@run_leaves_corpus_unchanged stable_kind alternation_engine
              Samples.stub_polarity Samples.run_bar Samples.late_first_world)
    as (_ & _ & _ & Hagain & Hret & _).
  destruct (@run_leaves_corpus_unchanged stable_kind alternation_engine
              Samples.stub_polarity Samples.run_paren Samples.late_first_world)
    as (_ & _ & Hparen & _).
  split; [exact run_bar_succeeds |]. split_and!.
  - destruct (Hret after_run_bar [] run_bar_succeeds) as (_ & _ & Hc). by rewrite Hc.
  - by rewrite Hagain.
  - by rewrite Hparen.
Defined.

Lemma run_result_sorted_by_created_at_witness :
  Samples.run_bar.(run_clicked) || Samples.run_bar.(auto_refresh) = true ∧
  @run_analysis stable_kind alternation_engine Samples.stub_polarity Samples.run_bar
    Samples.late_first_world = Some (after_run_bar, []) ∧
  result after_run_bar = Some [Samples.r1; Samples.r3] ∧
  ∃ rows sel df,
    corpus Samples.late_first_world = Some rows ∧
    @keyword_filter alternation_engine rows "t1|t0" 150 = Some sel ∧
    result after_run_bar = Some df ∧
    df ≡ₚ with_columns Samples.stub_polarity (1 # 10) <$> sel ∧
    StronglySorted (λ a b, (created_at (origin a) ≤ created_at (origin b))%Z) df.
Proof.
  split; [reflexivity |]. split; [exact run_bar_succeeds |]. split; [reflexivity |].
  destruct (@run_result_sorted_by_created_at stable_kind alternation_engine
              Samples.stub_polarity Samples.run_bar Samples.late_first_world eq_refl)
    as [Hsorted _].
  exact (Hsorted after_run_bar run_bar_succeeds).
Defined.

Lemma failed_run_keeps_previous_result_witness :
  well_formed after_run_bar ∧
  @run_analysis stable_kind alternation_engine Samples.stub_polarity
    Samples.run_bar_none after_run_bar =
    Some (after_run_bar_none, [error "No tweets found for this keyword!"]) ∧
  result after_run_bar_none = Some [Samples.r1; Samples.r3] ∧
  @main_content stable_kind after_run_bar_none =
    Some (Some (@summarize stable_kind [Samples.r1; Samples.r3])).
Proof.
  split; [exact after_run_bar_well_formed |]. split; [exact run_bar_none_fails |].
  destruct (@failed_run_keeps_previous_result stable_kind alternation_engine
              Samples.stub_polarity Samples.run_bar_none after_run_bar
              after_run_bar_well_formed) as [Hkeeps _].
  destruct (Hkeeps after_run_bar_none _ run_bar_none_fails) as (_ & Hr & _ & Hm).
  split; [by rewrite Hr |]. by apply Hm.
Defined.



(** * Further properties of the script *)

(** ** The keyword filter (line 85) *)
Section filter_more.
Import Text Re.
Context `{Engine}.

Lemma filter_all {A} (P : A → Prop) `{∀ x, Decision (P x)} (l : list A) :
  (∀ x, x ∈ l → P x) → filter P l = l.
Proof.
  induction l as [|x l IH]; intros Hl; [done |].
  rewrite filter_cons, decide_True by (apply Hl, elem_of_cons; by left).
  f_equal. apply IH. intros y Hy. apply Hl, elem_of_cons. by right.
Qed.

(** The empty keyword matches every text: the selection is the head of the
    corpus. *)
Theorem keyword_filter_empty_keyword (df : list tweet) (n : Z) :
  keyword_filter df EmptyString n = Some (Frame.head n df).
Proof.
  rewrite (keyword_filter_fragment df EmptyString [] n eq_refl). do 2 f_equal.
  apply filter_all. intros r _. by destruct (text r).
Qed.

(** Whatever the keyword, a pattern of the fragment or not: the filter
    returns a selection exactly when the engine compiles the keyword, and
    the selection is then cut out of the corpus in corpus order, holds only
    rows the compiled pattern finds, and has as many rows as there are
    matches, up to the count asked for. *)
Theorem keyword_filter_selection df kw n :
  (0 ≤ n)%Z →
  (re_compile kw = None → keyword_filter df kw n = None) ∧
  (∀ q, re_compile kw = Some q →
        keyword_filter df kw n =
          Some (Frame.head n (filter (λ r, re_search q (text r)) df))) ∧
  ∀ sel, keyword_filter df kw n = Some sel →
    ∃ q, re_compile kw = Some q ∧
         sel `sublist_of` df ∧
         (∀ r, r ∈ sel → r ∈ df ∧ re_search q (text r) = true) ∧
         length sel =
           Z.to_nat n `min` length (filter (λ r, re_search q (text r)) df) ∧
         ((Z.of_nat (length (filter (λ r, re_search q (text r)) df)) ≤ n)%Z →
          ∀ r, r ∈ df → re_search q (text r) = true → r ∈ sel).
Proof.
  intros Hn. split_and!.
  - intros Hq. unfold keyword_filter, Frame.text_contains. by rewrite Hq.
  - intros q Hq. unfold keyword_filter, Frame.text_contains. by rewrite Hq.
  - intros sel Hsel. pose proof (keyword_filter_sublist _ _ _ _ Hsel) as Hsub.
    unfold keyword_filter, Frame.text_contains in Hsel.
    destruct (re_compile kw) as [q|]; [| done]. simpl in Hsel. injection Hsel as <-.
    exists q. split_and!; [done | done | | |].
    + intros r Hr. rewrite head_nonneg in Hr by done.
      apply elem_of_take in Hr as (i & Hi & _).
      apply list_elem_of_lookup_2, list_elem_of_filter in Hi as [Hm Hin].
      split; [done | by apply Is_true_true].
    + by apply head_length.
    + intros Hall r Hr Hm. rewrite head_all by done.
      apply list_elem_of_filter. split; [by apply Is_true_true | done].
Qed.

End filter_more.

Lemma keyword_filter_selection_witness :
  (0 ≤ 2)%Z ∧
  @keyword_filter alternation_engine Samples.late_first "t1|t0" 2 =
    Some [Tweet 0 20 "t1"; Tweet 2 30 "t0"] ∧
  [Tweet 0 20 "t1"; Tweet 2 30 "t0"] `sublist_of` Samples.late_first ∧
  ∃ q, @re_compile alternation_engine "t1|t0" = Some q ∧
       length [Tweet 0 20 "t1"; Tweet 2 30 "t0"] =
         2 `min` length (filter (λ r, @re_search alternation_engine q (text r))
                           Samples.late_first).
Proof.
  assert (H2 : (0 ≤ 2)%Z) by lia.
  destruct (@keyword_filter_selection alternation_engine Samples.late_first "t1|t0" 2 H2)
    as (_ & _ & Hsel).
  destruct (Hsel [Tweet 0 20 "t1"; Tweet 2 30 "t0"] eq_refl)
    as (q & Hq & Hsub & _ & Hlen & _).
  split_and!; [done | reflexivity | done |]. by exists q.
Defined.

Lemma keyword_filter_plain_witness :
  @keyword_filter fragment_engine Samples.late_first "T1" 150 = Some [Tweet 0 20 "t1"].
Proof.
  rewrite (@keyword_filter_plain fragment_engine Samples.late_first "T1" 150);
    [reflexivity | by repeat constructor | lia].
Defined.

(** ** Letter case in the keyword and in the texts *)
Section case_facts.
Import Text Re.
Context `{Engine}.

Lemma lower_char_idemp c : lower_char (lower_char c) = lower_char c.
Proof. by destruct c as [[] [] [] [] [] [] [] []]. Qed.

Lemma lower_char_special c : special (lower_char c) = special c.
Proof. by destruct c as [[] [] [] [] [] [] [] []]. Qed.

Lemma lower_char_dot c : Ascii.eqb (lower_char c) "." = Ascii.eqb c ".".
Proof. by destruct c as [[] [] [] [] [] [] [] []]. Qed.

Lemma lower_char_newline c : Ascii.eqb (lower_char c) "010" = Ascii.eqb c "010".
Proof. by destruct c as [[] [] [] [] [] [] [] []]. Qed.

Lemma atom_matches_lower a c : atom_matches a (lower_char c) = atom_matches a c.
Proof.
  destruct a as [x|]; simpl; [by rewrite lower_char_idemp | by rewrite lower_char_newline].
Qed.

Lemma match_here_lower p s : match_here p (lower s) = match_here p s.
Proof.
  revert s. induction p as [|a p IH]; intros [|c s]; simpl; try done.
  by rewrite atom_matches_lower, IH.
Qed.

Lemma search_lower p s : search p (lower s) = search p s.
Proof.
  induction s as [|c s IH].
  - done.
  - cbn [lower search]. rewrite <- IH.
    by rewrite <- (match_here_lower p (String c s)).
Qed.

Lemma match_here_same_up_to_case p q s :
  Forall2 same_up_to_case p q → match_here p s = match_here q s.
Proof.
  intros Hpq. revert s. induction Hpq as [|a b p q Hab Hpq IH]; intros s; [done |].
  destruct s as [|c s]; simpl; [done |]. rewrite IH. f_equal.
  destruct a, b; simpl in *; try done. by rewrite Hab.
Qed.

Lemma search_same_up_to_case p q s :
  Forall2 same_up_to_case p q → search p s = search q s.
Proof.
  intros Hpq. induction s as [|c s IH]; simpl.
  - by rewrite (match_here_same_up_to_case p q).
  - by rewrite IH, (match_here_same_up_to_case p q).
Qed.

Lemma compile_lower k :
  match compile (lower k), compile k with
  | Some p, Some q => Forall2 same_up_to_case p q
  | None, None => True
  | _, _ => False
  end.
Proof.
  induction k as [|c k IH]; simpl; [constructor |].
  rewrite lower_char_dot, lower_char_special.
  destruct (Ascii.eqb c "."), (special c), (compile (lower k)), (compile k);
    simpl; try done; constructor; try done; simpl; by rewrite ?lower_char_idemp.
Qed.

(** The filter does not look at letter case: for a keyword in the pattern
    fragment, lowering the keyword gives the same selection, and a text is
    matched exactly when its lowered form is. *)
Theorem keyword_filter_ignores_case (df : list tweet) (kw : string) (n : Z) q :
  compile kw = Some q →
  ∃ sel, keyword_filter df kw n = Some sel ∧
         keyword_filter df (lower kw) n = Some sel ∧
         ∀ s, search q (lower s) = search q s.
Proof.
  intros Hq. pose proof (compile_lower kw) as Hc. rewrite Hq in Hc.
  destruct (compile (lower kw)) as [p|] eqn:Hp; [| done].
  rewrite (keyword_filter_fragment df kw q n Hq).
  rewrite (keyword_filter_fragment df (lower kw) p n Hp).
  eexists. split_and!; [done | | apply search_lower].
  do 2 f_equal. apply list_filter_iff. intros r.
  by rewrite (search_same_up_to_case p q).
Qed.

End case_facts.

Lemma keyword_filter_ignores_case_witness :
  ∃ sel, @keyword_filter fragment_engine Samples.late_first "T1" 150 = Some sel ∧
         @keyword_filter fragment_engine Samples.late_first "t1" 150 = Some sel.
Proof.
  destruct (@keyword_filter_ignores_case fragment_engine Samples.late_first "T1" 150
              [Re.Lit "T"; Re.Lit "1"]%char eq_refl) as (sel & H1 & H2 & _).
  by exists sel.
Defined.

(** ** The label and the threshold slider (line 92) *)
Section label_more.

Lemma sent_Neutral_iff pol thr :
  sent pol thr = Neutral ↔ (pol <= thr)%Q ∧ (- thr <= pol)%Q.
Proof.
  destruct (sent_cases pol thr) as [[Hp ->] | [(Hle & Hn & ->) | (Hle & Hge & ->)]].
  - split; [done |]. intros [Hle _]. by apply Qlt_not_le in Hp.
  - split; [done |]. intros [_ Hge]. by apply Qlt_not_le in Hn.
  - done.
Qed.

Lemma sent_Positive_iff pol thr : sent pol thr = Positive ↔ (thr < pol)%Q.
Proof.
  destruct (sent_cases pol thr) as [[Hp ->] | [(Hle & Hn & ->) | (Hle & Hge & ->)]].
  - done.
  - split; [done |]. intros Hp. by apply Qlt_not_le in Hp.
  - split; [done |]. intros Hp. by apply Qlt_not_le in Hp.
Qed.

Lemma sent_Negative_iff pol thr :
  sent pol thr = Negative ↔ (pol <= thr)%Q ∧ (pol < - thr)%Q.
Proof.
  destruct (sent_cases pol thr) as [[Hp ->] | [(Hle & Hn & ->) | (Hle & Hge & ->)]].
  - split; [done |]. intros [Hle _]. by apply Qlt_not_le in Hp.
  - done.
  - split; [done |]. intros [_ Hn]. by apply Qlt_not_le in Hn.
Qed.

(** Raising the threshold only moves records towards Neutral: a record that
    is Neutral stays Neutral, and a record that is Positive (Negative) at the
    higher threshold was already so at the lower one. *)
Theorem sent_threshold_monotone (pol thr thr' : Q) :
  (0 <= thr)%Q → (thr <= thr')%Q →
  (sent pol thr = Neutral → sent pol thr' = Neutral) ∧
  (sent pol thr' = Positive → sent pol thr = Positive) ∧
  (sent pol thr' = Negative → sent pol thr = Negative).
Proof.
  intros H0 Hle.
  assert (Hopp : (- thr' <= - thr)%Q) by (by apply Qopp_le_compat).
  split_and!.
  - rewrite !sent_Neutral_iff. intros [H1 H2]. split; by eapply Qle_trans.
  - rewrite !sent_Positive_iff. intros H1. by eapply Qle_lt_trans.
  - rewrite !sent_Negative_iff. intros [_ H2].
    assert (Hn : (pol < - thr)%Q) by (by eapply Qlt_le_trans).
    split; [| done]. apply Qlt_le_weak. eapply Qlt_le_trans; [exact Hn |].
    apply Qle_trans with 0%Q; [| done].
    change 0%Q with (- 0)%Q. by apply Qopp_le_compat.
Qed.

Lemma sent_threshold_monotone_witness :
  sent (2 # 10) (1 # 10) = Positive ∧ sent (2 # 10) (3 # 10) = Neutral ∧
  (sent (2 # 10) (1 # 10) = Neutral → sent (2 # 10) (3 # 10) = Neutral).
Proof.
  split_and!; [done | done |].
  apply (sent_threshold_monotone (2 # 10) (1 # 10) (3 # 10)); by vm_compute.
Defined.

(** The label treats the two signs alike: for a threshold that is not
    negative, the opposite polarity gets the opposite label. *)
Theorem sent_opposite_polarity (pol thr : Q) :
  (0 <= thr)%Q →
  (sent (- pol) thr = Positive ↔ sent pol thr = Negative) ∧
  (sent (- pol) thr = Negative ↔ sent pol thr = Positive) ∧
  (sent (- pol) thr = Neutral ↔ sent pol thr = Neutral).
Proof.
  intros H0.
  rewrite !sent_Positive_iff, !sent_Negative_iff, !sent_Neutral_iff.
  split_and!; split; intros; try split; lra.
Qed.

Lemma sent_opposite_polarity_witness :
  sent (- (4 # 10)) (1 # 10) = Negative ∧ sent (4 # 10) (1 # 10) = Positive.
Proof.
  destruct (sent_opposite_polarity (4 # 10) (1 # 10)) as (_ & Hn & _);
    [by vm_compute |].
  split; [by apply Hn | done].
Defined.

End label_more.

(** ** What a run stores (lines 85-98) *)
Section run_more.
Context `{SortKind} `{Engine} (polarity : string → Q).

Lemma keyword_filter_inv df kw n sel :
  (0 ≤ n)%Z →
  keyword_filter df kw n = Some sel →
  ∃ q, re_compile kw = Some q ∧
       (∀ r, r ∈ sel → r ∈ df ∧ re_search q (text r) = true) ∧
       length sel = Z.to_nat n `min` length (filter (λ r, re_search q (text r)) df).
Proof.
  intros Hn Hsel. unfold keyword_filter, Frame.text_contains in Hsel.
  destruct (re_compile kw) as [q|]; [| done]. simpl in Hsel. injection Hsel as <-.
  exists q. split_and!; [done | | by apply head_length].
  intros r Hr. rewrite head_nonneg in Hr by done.
  apply elem_of_take in Hr as (i & Hi & _).
  apply list_elem_of_lookup_2, list_elem_of_filter in Hi as [Hm Hin].
  split; [done | by apply Is_true_true].
Qed.

(** After a run that found matches, whatever the keyword, the stored result
    is not empty and has at most [tweet_count] rows, as many as there are
    matches up to that count. Each row stems from a record of the corpus
    that the compiled keyword finds, carries the polarity of that record's
    text and the label of that polarity at the threshold of the run, and
    the page shows the summary of these rows. Such a run is what every
    keyword gives that the engine compiles and that finds a record, if at
    least one row is asked for. *)
Theorem run_result_rows c w :
  run_clicked c || auto_refresh c = true →
  (0 ≤ tweet_count c)%Z →
  (∀ w', run_analysis polarity c w = Some (w', []) →
    ∃ rows q df,
      corpus w = Some rows ∧ re_compile (keyword c) = Some q ∧
      result w' = Some df ∧
      df ≠ [] ∧
      length df =
        Z.to_nat (tweet_count c) `min`
          length (filter (λ r, re_search q (text r)) rows) ∧
      (∀ r, r ∈ df →
            origin r ∈ rows ∧
            re_search q (text (origin r)) = true ∧
            Polarity r = polarity (text (origin r)) ∧
            Sentiment r = sent (Polarity r) (sentiment_threshold c) ∧
            Time r = created_at (origin r)) ∧
      main_content w' = Some (Some (summarize df))) ∧
  (∀ rows q t, corpus w = Some rows → re_compile (keyword c) = Some q →
     t ∈ rows → re_search q (text t) = true → (0 < tweet_count c)%Z →
     ∃ w', run_analysis polarity c w = Some (w', [])).
Proof.
  intros Htrig Hn. split.
  - intros w'
      [(Hno & _) | (rows & sel & df & _ & Hrows & Hsel & Hdf & Hcase)]%run_analysis_cases;
      [congruence |].
    destruct Hcase as [(_ & _ & ?) | (Hne & df' & _ & _ & -> & _)]; [done |].
    destruct (keyword_filter_inv _ _ _ _ Hn Hsel) as (q & Hq & Hin & Hlen).
    set (cols := with_columns polarity (sentiment_threshold c) <$> sel).
    assert (Hres : result (World (<[df' := Analysed (Frame.sort_values by_time true cols)]>
                                    (<[df := Analysed cols]> (store w)))
                                 (Session (tweets_df (session w)) df'))
                   = Some (Frame.sort_values by_time true cols)).
    { apply result_Some. apply lookup_insert_eq. }
    assert (Hnonempty : Frame.sort_values by_time true cols ≠ []).
    { intros Hnil. pose proof (sort_values_perm by_time true cols) as Hperm.
      rewrite Hnil in Hperm. apply Permutation_nil_l in Hperm.
      unfold cols in Hperm. by destruct sel. }
    exists rows, q, (Frame.sort_values by_time true cols).
    split_and!; [done | done | done | done | | | by apply main_content_shows].
    + rewrite (sort_values_perm by_time true cols). unfold cols.
      by rewrite length_fmap.
    + intros r Hr. rewrite (sort_values_perm by_time true cols) in Hr.
      apply list_elem_of_fmap in Hr as (t & -> & Ht).
      destruct (Hin t Ht) as [Htr Hm]. by split_and!.
  - intros rows q t Hrows Hq Ht Hm Hpos.
    by apply (run_analysis_match polarity c w rows q t).
Qed.

End run_more.

Lemma run_result_rows_witness :
  Samples.run_bar.(run_clicked) || Samples.run_bar.(auto_refresh) = true ∧
  (0 ≤ tweet_count Samples.run_bar)%Z ∧
  @run_analysis stable_kind alternation_engine Samples.stub_polarity Samples.run_bar
    Samples.late_first_world = Some (after_run_bar, []) ∧
  ∃ rows q df,
    corpus Samples.late_first_world = Some rows ∧
    @re_compile alternation_engine "t1|t0" = Some q ∧
    result after_run_bar = Some df ∧ df ≠ [] ∧
    length df =
      150 `min` length (filter (λ r, @re_search alternation_engine q (text r)) rows).
Proof.
  assert (H150 : (0 ≤ tweet_count Samples.run_bar)%Z) by (by vm_compute).
  split; [reflexivity |]. split; [exact H150 |]. split; [exact run_bar_succeeds |].
  destruct (@run_result_rows stable_kind alternation_engine Samples.stub_polarity
              Samples.run_bar Samples.late_first_world eq_refl H150) as [Hrows _].
  destruct (Hrows after_run_bar run_bar_succeeds)
    as (rows & q & df & Hr & Hq & Hdf & Hne & Hlen & _).
  by exists rows, q, df.
Defined.


(** ** The two top lists (lines 150 and 153) *)
Section top_more.
Context `{SortKind}.

Lemma ranked_elem label asc k df r :
  r ∈ ranked label asc k df → r ∈ df ∧ Sentiment r = label.
Proof.
  unfold ranked. destruct (head_take k
    (Frame.sort_values by_polarity asc (filter (λ r, Sentiment r = label) df)))
    as [m ->].
  intros (i & Hi & _)%elem_of_take. apply list_elem_of_lookup_2 in Hi.
  rewrite (sort_values_perm by_polarity asc) in Hi.
  by apply list_elem_of_filter in Hi as [? ?].
Qed.

Lemma ranked_dominates label asc k df a r :
  (0 ≤ k)%Z →
  a ∈ ranked label asc k df →
  r ∈ df → Sentiment r = label → r ∉ ranked label asc k df →
  if asc then (Polarity a <= Polarity r)%Q else (Polarity r <= Polarity a)%Q.
Proof.
  intros Hk Ha Hr Hl Hnot.
  destruct (ranked_spec label asc k df Hk) as (s & Hs & Hperm & Hsorted).
  rewrite Hs in Ha, Hnot.
  assert (Hrs : r ∈ s) by (rewrite Hperm; by apply list_elem_of_filter).
  rewrite <- (take_drop (Z.to_nat k) s) in Hrs, Hsorted.
  apply elem_of_app in Hrs as [? | Hrs]; [done |].
  apply StronglySorted_app in Hsorted as (Hcross & _ & _).
  by apply Hcross.
Qed.

(** The top lists show rows of the frame only, a positive list of rows
    labelled Positive and a negative list of rows labelled Negative, five at
    most each, and never the same row in both. A row of the right label that
    is left out never beats a row that is shown. *)
Theorem top_lists_show_the_extremes (df : list scored) :
  (∀ r, r ∈ top_positive df → r ∈ df ∧ Sentiment r = Positive) ∧
  (∀ r, r ∈ top_negative df → r ∈ df ∧ Sentiment r = Negative) ∧
  (length (top_positive df) ≤ 5)%nat ∧ (length (top_negative df) ≤ 5)%nat ∧
  (∀ r, r ∈ top_positive df → r ∉ top_negative df) ∧
  (∀ a r, a ∈ top_positive df → r ∈ df → Sentiment r = Positive →
          r ∉ top_positive df → (Polarity r <= Polarity a)%Q) ∧
  (∀ a r, a ∈ top_negative df → r ∈ df → Sentiment r = Negative →
          r ∉ top_negative df → (Polarity a <= Polarity r)%Q).
Proof.
  split_and!.
  - intros r. apply ranked_elem.
  - intros r. apply ranked_elem.
  - unfold top_positive, ranked. rewrite head_length by done. lia.
  - unfold top_negative, ranked. rewrite head_length by done. lia.
  - intros r [_ Hp]%ranked_elem [_ Hn]%ranked_elem. congruence.
  - intros a r Ha Hr Hl Hnot.
    by apply (ranked_dominates Positive false 5 df a r).
  - intros a r Ha Hr Hl Hnot.
    by apply (ranked_dominates Negative true 5 df a r).
Qed.

(** On the result of a run whose threshold is not negative, every row of the
    positive list has a polarity above the threshold and every row of the
    negative list one below its opposite: each positive row lies strictly
    above each negative row. *)
Theorem top_lists_apart `{Engine} (polarity : string → Q) c w w' df :
  (0 <= sentiment_threshold c)%Q →
  run_clicked c || auto_refresh c = true →
  run_analysis polarity c w = Some (w', []) →
  result w' = Some df →
  (∀ a, a ∈ top_positive df → (sentiment_threshold c < Polarity a)%Q) ∧
  (∀ b, b ∈ top_negative df → (Polarity b < - sentiment_threshold c)%Q) ∧
  (∀ a b, a ∈ top_positive df → b ∈ top_negative df → (Polarity b < Polarity a)%Q).
Proof.
  intros Hthr Htrig
    [(Hno & _) | (rows & sel & l & _ & Hrows & Hsel & Hl & Hcase)]%run_analysis_cases Hdf;
    [congruence |].
  destruct Hcase as [(_ & _ & ?) | (Hne & l' & _ & _ & -> & _)]; [done |].
  apply result_Some in Hdf. simpl in Hdf. rewrite lookup_insert_eq in Hdf.
  injection Hdf as <-.
  set (df := Frame.sort_values by_time true
               (with_columns polarity (sentiment_threshold c) <$> sel)).
  assert (Hlab : ∀ r, r ∈ df → Sentiment r = sent (Polarity r) (sentiment_threshold c)).
  { intros r Hr. unfold df in Hr. rewrite (sort_values_perm by_time true) in Hr.
    by apply list_elem_of_fmap in Hr as (t & -> & _). }
  assert (Hpos : ∀ a, a ∈ top_positive df → (sentiment_threshold c < Polarity a)%Q).
  { intros a [Ha Hp]%ranked_elem. rewrite (Hlab a Ha) in Hp.
    by apply sent_Positive_iff in Hp. }
  assert (Hneg : ∀ b, b ∈ top_negative df → (Polarity b < - sentiment_threshold c)%Q).
  { intros b [Hb Hn]%ranked_elem. rewrite (Hlab b Hb) in Hn.
    by apply sent_Negative_iff in Hn as [_ ?]. }
  split_and!; [done | done |].
  intros a b Ha%Hpos Hb%Hneg. lra.
Qed.

End top_more.

Definition after_run_good_bad : world :=
  Eval vm_compute in
    @after_run stable_kind alternation_engine Samples.stub_polarity run_good_bad
      three_world.

Lemma run_good_bad_succeeds :
  @run_analysis stable_kind alternation_engine Samples.stub_polarity run_good_bad
    three_world = Some (after_run_good_bad, []) ∧
  result after_run_good_bad =
    Some (with_columns Samples.stub_polarity (1 # 10) <$>
            [Tweet 0 1 "good"; Tweet 1 2 "bad"]).
Proof. by vm_compute. Qed.

Lemma top_lists_apart_witness :
  (0 <= sentiment_threshold run_good_bad)%Q ∧
  @run_analysis stable_kind alternation_engine Samples.stub_polarity run_good_bad
    three_world = Some (after_run_good_bad, []) ∧
  (text ∘ origin) <$>
    @top_positive stable_kind (default [] (result after_run_good_bad)) = ["good"] ∧
  (text ∘ origin) <$>
    @top_negative stable_kind (default [] (result after_run_good_bad)) = ["bad"] ∧
  (Polarity (with_columns Samples.stub_polarity (1 # 10) (Tweet 1 2 "bad")) <
   Polarity (with_columns Samples.stub_polarity (1 # 10) (Tweet 0 1 "good")))%Q.
Proof.
  assert (Hthr : (0 <= sentiment_threshold run_good_bad)%Q) by (by vm_compute).
  split; [exact Hthr |]. split; [apply run_good_bad_succeeds |].
  split; [reflexivity |]. split; [reflexivity |].
  destruct (@top_lists_apart stable_kind alternation_engine Samples.stub_polarity
              run_good_bad three_world after_run_good_bad _ Hthr eq_refl
              (proj1 run_good_bad_succeeds) (proj2 run_good_bad_succeeds))
    as (_ & _ & Hab).
  apply Hab; vm_compute; apply elem_of_cons; by left.
Defined.

(** ** Executions of the script, one after another *)
Section script_facts.
Context `{SortKind} `{Engine} (polarity : string → Q).


Lemma labelled_snoc rows t :
  labelled rows → labelled (rows ++ [Tweet (length rows) (created_at t) (text t)]).
Proof.
  intros Hl. rewrite <- (concat_ignore_index_append rows t Hl).
  apply concat_ignore_index_labelled.
Qed.

Lemma add_tweet_cases now c w w' out rows :
  corpus w = Some rows → labelled rows →
  add_tweet now c w = Some (w', out) →
  (w' = w ∧ out = []) ∨
  (add_clicked c = true ∧ custom_tweet c ≠ EmptyString ∧
   out = [success "Tweet added!"] ∧
   corpus w' = Some (rows ++ [Tweet (length rows) now (custom_tweet c)]) ∧
   analysis_df (session w') = analysis_df (session w) ∧
   extends w w').
Proof.
  intros Hrows Hl Hadd.
  destruct (add_clicked c) eqn:Hclick.
  2:{ rewrite add_tweet_not_clicked in Hadd by done. left. by injection Hadd as <- <-. }
  destruct (decide (custom_tweet c = EmptyString)) as [Heq | Hneq].
  { rewrite (add_tweet_empty now c w Heq) in Hadd. left. by injection Hadd as <- <-. }
  destruct (add_tweet_nonempty now c w rows Hrows Hclick Hneq)
    as (w1 & new & Hrun & Hc & -> & Ha & Hext).
  rewrite Hrun in Hadd. injection Hadd as <- <-. right.
  split_and!; [done | done | done | | done | done].
  by rewrite Hc, (concat_ignore_index_append rows _ Hl).
Qed.

Lemma add_tweet_invariant now c w w' out :
  session_invariant w → add_tweet now c w = Some (w', out) → session_invariant w'.
Proof.
  intros (rows & df & Hrows & Hdf & Hl & Hsorted & Hfrom) Hadd.
  destruct (add_tweet_cases now c w w' out rows Hrows Hl Hadd)
    as [[-> _] | (_ & _ & _ & Hc & Ha & Hext)].
  { by exists rows, df. }
  eexists _, df. split_and!; [exact Hc | | | done |].
  - rewrite <- Hdf. apply extends_result; [done | done | by eexists].
  - apply (labelled_snoc rows (Tweet 0 now (custom_tweet c)) Hl).
  - eapply Forall_impl; [exact Hfrom |]. intros r [Hr Ht].
    split; [| done]. apply elem_of_app. by left.
Qed.

Lemma run_analysis_invariant c w w' out :
  session_invariant w → run_analysis polarity c w = Some (w', out) →
  session_invariant w'.
Proof.
  intros (rows & df & Hrows & Hdf & Hl & Hsorted & Hfrom) Hrun.
  pose proof (run_analysis_corpus _ _ _ _ _ Hrun) as Hc.
  destruct (run_analysis_extends _ _ _ _ _ Hrun) as [Hext _].
  apply run_analysis_cases in Hrun
    as [(_ & -> & _) | (rows' & sel & l & _ & Hrows' & Hsel & _ & Hcase)].
  { by exists rows, df. }
  assert (rows' = rows) as -> by congruence.
  destruct Hcase as [(_ & -> & _) | (_ & l' & _ & _ & -> & _)].
  - exists rows, df. split_and!; [by rewrite Hc | | done | done | done].
    rewrite <- Hdf. apply extends_result; [done | done | by eexists].
  - eexists rows, _. split_and!; [by rewrite Hc | | done | |].
    + apply result_Some. apply lookup_insert_eq.
    + eapply StronglySorted_weaken;
        [| apply (sort_values_ascending by_time);
           [apply by_time_total | apply by_time_trans]].
      intros a b. unfold by_time. by rewrite Z.leb_le.
    + apply Forall_forall. intros r Hr.
      rewrite (sort_values_perm by_time true) in Hr.
      apply list_elem_of_fmap in Hr as (t & -> & Ht). split; [| done].
      apply keyword_filter_sublist in Hsel. simpl.
      by eapply elem_of_sublist.
Qed.

Lemma script_cases now c w w' out shown :
  script polarity now c w = Some (w', out, shown) →
  ∃ w1 n1 n2,
    add_tweet now c w = Some (w1, n1) ∧
    run_analysis polarity c w1 = Some (w', n2) ∧
    main_content w' = Some shown ∧
    out = n1 ++ n2.
Proof.
  unfold script. intros Hs.
  destruct (add_tweet now c w) as [[w1 n1]|]; [| done]. cbn [mbind option_bind] in Hs.
  destruct (run_analysis polarity c w1) as [[w2 n2]|] eqn:Hrun; [| done].
  cbn [mbind option_bind] in Hs.
  destruct (main_content w2) as [s|] eqn:Hmain; [| done].
  cbn [mbind option_bind] in Hs.
  simplify_eq. by exists w1, n1, n2.
Qed.

Lemma initial_invariant demo : labelled demo → session_invariant (initial demo).
Proof.
  intros Hl. exists demo, []. split_and!; [done | done | done | constructor | constructor].
Qed.

Lemma after_run_invariant c w :
  session_invariant w → session_invariant (after_run polarity c w).
Proof.
  intros Hinv. unfold after_run.
  destruct (run_analysis polarity c w) as [[w' out]|] eqn:Hrun; [| done].
  by eapply run_analysis_invariant.
Qed.

Lemma after_script_invariant now c w :
  session_invariant w → session_invariant (after_script polarity now c w).
Proof.
  intros Hinv. unfold after_script.
  destruct (add_tweet now c w) as [[w1 n1]|] eqn:Hadd; [| done].
  apply after_run_invariant. by eapply add_tweet_invariant.
Qed.

Lemma script_after_script now c w w' out shown :
  script polarity now c w = Some (w', out, shown) →
  after_script polarity now c w = w'.
Proof.
  intros (w1 & n1 & n2 & Hadd & Hrun & _ & _)%script_cases.
  unfold after_script, after_run. by rewrite Hadd, Hrun.
Qed.

Lemma reachable_invariant demo w :
  labelled demo → reachable polarity demo w → session_invariant w.
Proof.
  intros Hl Hreach. induction Hreach as [|w now c Hreach IH].
  - by apply initial_invariant.
  - by apply after_script_invariant.
Qed.

(** In every session the process can reach, whatever keywords were typed
    and whether or not an execution of the script was cut short by an
    exception, the corpus is labelled by position and the stored result is
    sorted on time and made of rows that stem from records of the corpus;
    the session an execution leaves is reachable again. *)
Theorem reachable_sessions_keep_invariant demo w :
  labelled demo → reachable polarity demo w →
  session_invariant w ∧
  (∀ now c, session_invariant (after_script polarity now c w)) ∧
  (∀ now c w' out shown,
     script polarity now c w = Some (w', out, shown) →
     w' = after_script polarity now c w ∧ reachable polarity demo w').
Proof.
  intros Hl Hreach. split_and!.
  - by eapply reachable_invariant.
  - intros now c. apply after_script_invariant. by eapply reachable_invariant.
  - intros now c w' out shown Hs. apply script_after_script in Hs as <-.
    split; [done | by constructor].
Qed.

Lemma after_script_corpus now c w rows :
  corpus w = Some rows → labelled rows →
  (add_clicked c = false ∨ custom_tweet c = EmptyString) ∧
    corpus (after_script polarity now c w) = Some rows ∨
  add_clicked c = true ∧ custom_tweet c ≠ EmptyString ∧
    corpus (after_script polarity now c w) =
      Some (rows ++ [Tweet (length rows) now (custom_tweet c)]).
Proof.
  intros Hrows Hl. unfold after_script.
  destruct (add_clicked c) eqn:Hclick.
  2:{ rewrite add_tweet_not_clicked by done. left.
      split; [by left |]. by rewrite after_run_corpus. }
  destruct (decide (custom_tweet c = EmptyString)) as [Heq | Hneq].
  { rewrite (add_tweet_empty now c w Heq). left.
    split; [by right |]. by rewrite after_run_corpus. }
  destruct (add_tweet_nonempty now c w rows Hrows Hclick Hneq)
    as (w1 & new & Hadd & Hc & -> & _ & _).
  rewrite Hadd. right. split_and!; [done | done |].
  by rewrite after_run_corpus, Hc, (concat_ignore_index_append rows _ Hl).
Qed.

(** The corpus only grows, and only at its end: after an execution of the
    script, completed or cut short by an exception of the run, it is the
    corpus of before when the button was not clicked or the text area was
    empty, and otherwise that corpus followed by the one record typed into
    the text area. *)
Theorem script_corpus_append_only now c w rows :
  corpus w = Some rows → labelled rows →
  ((add_clicked c = false ∨ custom_tweet c = EmptyString) ∧
     corpus (after_script polarity now c w) = Some rows ∨
   add_clicked c = true ∧ custom_tweet c ≠ EmptyString ∧
     corpus (after_script polarity now c w) =
       Some (rows ++ [Tweet (length rows) now (custom_tweet c)])) ∧
  (∀ w' out shown,
     script polarity now c w = Some (w', out, shown) →
     w' = after_script polarity now c w).
Proof.
  intros Hrows Hl. split; [by apply after_script_corpus |].
  intros w' out shown Hs. by apply script_after_script in Hs.
Qed.


End script_facts.

Lemma late_first_labelled : labelled Samples.late_first.
Proof. intros [|[|[|i]]] r; simpl; intros [= <-]; done. Qed.

Lemma reachable_sessions_keep_invariant_witness :
  labelled Samples.late_first ∧
  @reachable stable_kind alternation_engine Samples.stub_polarity Samples.late_first
    (@after_script stable_kind alternation_engine Samples.stub_polarity 8
       Samples.run_paren
       (@after_script stable_kind alternation_engine Samples.stub_polarity 7
          Samples.run_bar Samples.late_first_world)) ∧
  session_invariant
    (@after_script stable_kind alternation_engine Samples.stub_polarity 8
       Samples.run_paren
       (@after_script stable_kind alternation_engine Samples.stub_polarity 7
          Samples.run_bar Samples.late_first_world)).
Proof.
  assert (Hreach :
    @reachable stable_kind alternation_engine Samples.stub_polarity Samples.late_first
      (@after_script stable_kind alternation_engine Samples.stub_polarity 8
         Samples.run_paren
         (@after_script stable_kind alternation_engine Samples.stub_polarity 7
            Samples.run_bar Samples.late_first_world))).
  { apply (@reachable_script stable_kind alternation_engine Samples.stub_polarity
             Samples.late_first _ 8 Samples.run_paren).
    apply (@reachable_script stable_kind alternation_engine Samples.stub_polarity
             Samples.late_first Samples.late_first_world 7 Samples.run_bar).
    apply reachable_initial. }
  split_and!; [exact late_first_labelled | exact Hreach |].
  apply (@reachable_sessions_keep_invariant stable_kind alternation_engine
           Samples.stub_polarity Samples.late_first _ late_first_labelled Hreach).
Defined.

Lemma script_corpus_append_only_witness :
  corpus Samples.late_first_world = Some Samples.late_first ∧
  labelled Samples.late_first ∧
  corpus (@after_script stable_kind alternation_engine Samples.stub_polarity 7
            add_and_run_bar Samples.late_first_world) =
    Some (Samples.late_first ++ [Tweet 3 7 "t9"]).
Proof.
  split_and!; [reflexivity | exact late_first_labelled |].
  destruct (@script_corpus_append_only stable_kind alternation_engine
              Samples.stub_polarity 7 add_and_run_bar Samples.late_first_world
              Samples.late_first eq_refl late_first_labelled)
    as [[([Hc | Ht] & _) | (_ & _ & Hgrown)] _].
  - by vm_compute in Hc.
  - by vm_compute in Ht.
  - exact Hgrown.
Defined.


(** ** The demo corpus (lines 15-42) *)
Section demo_facts.
Import Demo.

Lemma choice_elem (seq : list string) k : seq ≠ [] → choice seq k ∈ seq.
Proof.
  intros Hne. unfold choice. apply list_elem_of_In, nth_In.
  apply Nat.mod_upper_bound. by destruct seq.
Qed.

Lemma randint_bounds (a b k : nat) : (a ≤ b → a ≤ randint a b k ≤ b)%nat.
Proof.
  intros Hab. unfold randint.
  pose proof (Nat.mod_upper_bound k (b - a + 1)). lia.
Qed.

Lemma format_go_field brand template :
  has_field template = true → Text.substring brand (format_go 0 brand template).
Proof.
  induction template as [|c rest IH]; [done |].
  cbn [has_field format_go].
  destruct (Text.startswith "{brand}" (String c rest)) eqn:Hs.
  - intros _. by exists EmptyString, (format_go 6 brand rest).
  - simpl. intros (pre & post & Hrest)%IH.
    exists (String c pre), post. by rewrite Hrest.
Qed.

Lemma sentiments_have_field : Forall (λ t, has_field t = true) sentiments.
Proof. by repeat constructor. Qed.

Lemma generate_demo_tweets_lookup source n i :
  generate_demo_tweets source n !! i =
  if decide (i < n)%nat
  then Some (Tweet i (demo_tweet (source i)).1 (demo_tweet (source i)).2)
  else None.
Proof.
  unfold generate_demo_tweets.
  rewrite list_lookup_imap, list_lookup_fmap.
  destruct (decide (i < n)) as [Hi | Hi].
  - by rewrite lookup_seq_lt.
  - by rewrite lookup_seq_ge by lia.
Qed.

Lemma generate_demo_tweets_length source n :
  length (generate_demo_tweets source n) = n.
Proof.
  unfold generate_demo_tweets. by rewrite length_imap, length_fmap, length_seq.
Qed.

Lemma generate_demo_tweets_labelled source n :
  labelled (generate_demo_tweets source n).
Proof.
  intros i r. rewrite generate_demo_tweets_lookup.
  case_decide; [| done]. by intros [= <-].
Qed.

Lemma generate_demo_tweets_elem source n r :
  r ∈ generate_demo_tweets source n →
  (idx r < n)%nat ∧
  text r = format (choice sentiments (sentiment_pick (source (idx r))))
                  (brand_of source (idx r)).
Proof.
  intros (i & Hi)%list_elem_of_lookup_1.
  rewrite generate_demo_tweets_lookup in Hi.
  case_decide; [| done]. by injection Hi as <-.
Qed.

Lemma sentiments_templates brand :
  Forall (λ t, ∃ pre post,
            t = pre +:+ "{brand}" +:+ post ∧
            format t brand = pre +:+ brand +:+ post) sentiments.
Proof.
  unfold sentiments.
  repeat (apply Forall_cons_2; [| try apply Forall_nil_2]);
    match goal with
    | |- ∃ pre post, ?t = _ ∧ _ =>
        let r := eval vm_compute in (field_parts t) in
        lazymatch r with
        | Some (?a, ?b) => exists a, b; split; reflexivity
        end
    end.
Qed.

(** The generator returns [num_tweets] rows labelled by position. The text
    of each row is one of the ten templates, formatted with one of the ten
    brands: the template with its [{brand}] field replaced by the brand and
    nothing else changed, so the text contains that brand. Each time lies
    within 30 days and 23 hours before the reading of the clock. *)
Theorem generate_demo_tweets_rows source n :
  length (generate_demo_tweets source n) = n ∧
  labelled (generate_demo_tweets source n) ∧
  ∀ i, (i < n)%nat →
    ∃ r, generate_demo_tweets source n !! i = Some r ∧
         idx r = i ∧
         brand_of source i ∈ brands ∧
         (∃ template pre post,
            template ∈ sentiments ∧
            template = pre +:+ "{brand}" +:+ post ∧
            text r = format template (brand_of source i) ∧
            text r = pre +:+ brand_of source i +:+ post) ∧
         Text.substring (brand_of source i) (text r) ∧
         (clock (source i) - 743 * 3600000000 ≤ created_at r ≤ clock (source i))%Z.
Proof.
  split_and!; [apply generate_demo_tweets_length | apply generate_demo_tweets_labelled |].
  intros i Hi. rewrite generate_demo_tweets_lookup, decide_True by done.
  eexists. split_and!; [done | done | by apply choice_elem | | | |]; simpl.
  - set (t := choice sentiments (sentiment_pick (source i))).
    assert (Ht : t ∈ sentiments) by (by apply choice_elem).
    pose proof (sentiments_templates (brand_of source i)) as Hf.
    rewrite Forall_forall in Hf. destruct (Hf t Ht) as (pre & post & Hpre & Hfmt).
    by exists t, pre, post.
  - apply format_go_field.
    pose proof sentiments_have_field as Hf. rewrite Forall_forall in Hf.
    by apply Hf, choice_elem.
  - unfold timedelta.
    pose proof (randint_bounds 0 30 (days_pick (source i))).
    pose proof (randint_bounds 0 23 (hours_pick (source i))). lia.
  - unfold timedelta.
    pose proof (randint_bounds 0 30 (days_pick (source i))).
    pose proof (randint_bounds 0 23 (hours_pick (source i))). lia.
Qed.

Lemma brand_table_holds : brand_table = true.
Proof. by vm_compute. Qed.

Lemma brand_search kw t b :
  kw ∈ brands → t ∈ sentiments → b ∈ brands →
  Re.search (Re.Lit <$> list_ascii_of_string kw) (format t b) = true ↔ b = kw.
Proof.
  intros Hkw%list_elem_of_In Ht%list_elem_of_In Hb%list_elem_of_In.
  pose proof brand_table_holds as Htab. unfold brand_table in Htab.
  rewrite forallb_forall in Htab. specialize (Htab kw Hkw).
  rewrite forallb_forall in Htab. specialize (Htab t Ht).
  rewrite forallb_forall in Htab. specialize (Htab b Hb).
  apply Bool.eqb_prop in Htab. rewrite Htab. apply String.eqb_eq.
Qed.

Lemma brands_plain : Forall Re.plain brands.
Proof. by repeat constructor. Qed.

Lemma filter_ext_elem {A} (P Q : A → Prop) `{∀ x, Decision (P x)}
    `{∀ x, Decision (Q x)} (l : list A) :
  (∀ x, x ∈ l → P x ↔ Q x) → filter P l = filter Q l.
Proof.
  induction l as [|x l IH]; intros Hl; [done |].
  rewrite !filter_cons, IH by (intros y Hy; apply Hl, elem_of_cons; by right).
  assert (P x ↔ Q x) as HPQ by (apply Hl, elem_of_cons; by left).
  destruct (decide (P x)), (decide (Q x)); tauto.
Qed.

(** On the demo corpus, a brand name as keyword selects the tweets made for
    that brand and no others: the first [limit] of them, in corpus order. *)
Theorem demo_filter_by_brand `{Engine} source n kw limit :
  kw ∈ brands → (0 ≤ limit)%Z →
  keyword_filter (generate_demo_tweets source n) kw limit =
  Some (take (Z.to_nat limit)
          (filter (λ r, brand_of source (idx r) = kw) (generate_demo_tweets source n))).
Proof.
  intros Hkw Hlimit.
  pose proof brands_plain as Hplain. rewrite Forall_forall in Hplain.
  rewrite (keyword_filter_fragment _ _ _ _ (compile_plain kw (Hplain kw Hkw))).
  f_equal. rewrite head_nonneg by done. f_equal.
  apply filter_ext_elem. intros r [Hi Ht]%generate_demo_tweets_elem.
  rewrite Ht. rewrite <- (brand_search kw); [apply Is_true_true | done | |];
    by apply choice_elem.
Qed.

End demo_facts.

Lemma demo_filter_by_brand_witness :
  idx <$> default [] (@keyword_filter fragment_engine
                        (Demo.generate_demo_tweets round_robin 20) "Tesla" 150)
    = [0; 10].
Proof.
  rewrite (@demo_filter_by_brand fragment_engine round_robin 20 "Tesla" 150);
    [reflexivity | apply elem_of_cons; by left | lia].
Defined.

(** ** The insights tab (lines 137-147) *)
Section insight_facts.
Import Text.

Lemma split_go_after_blank c s t cur :
  isspace c = true →
  split_go cur (s +:+ String c t) = split_go cur s ++ split_go EmptyString t.
Proof.
  intros Hc. revert cur. induction s as [|d s IH]; intros cur.
  - change (EmptyString +:+ String c t) with (String c t).
    cbn [split_go]. rewrite Hc. by destruct (String.eqb cur EmptyString).
  - rewrite append_cons. cbn [split_go].
    destruct (isspace d); [| apply IH].
    destruct (String.eqb cur EmptyString); [apply IH |].
    by rewrite IH.
Qed.

Lemma split_concat_blank (texts : list string) :
  split (String.concat " " texts) = texts ≫= split.
Proof.
  induction texts as [|x [|y texts] IH]; [done | |].
  - simpl. by rewrite app_nil_r.
  - change (String.concat " " (x :: y :: texts))
      with (x +:+ String " " (String.concat " " (y :: texts))).
    unfold split in *. rewrite split_go_after_blank by done.
    by rewrite IH.
Qed.

(** The text handed to the word cloud has the words of the texts taken one
    by one, in the same order: the trending list counts those of them that
    do not begin with http. *)
Theorem text_all_words (df : list scored) :
  split (text_all df) = ((text ∘ origin) <$> df) ≫= split ∧
  words ((text ∘ origin) <$> df) =
    filter (λ w, negb (startswith "http" w)) (split (text_all df)).
Proof.
  unfold text_all. rewrite split_concat_blank. split; [done |].
  unfold words. induction ((text ∘ origin) <$> df) as [|t texts IH]; [done |].
  by rewrite !bind_cons, filter_app, IH.
Qed.

Lemma most_common_elem {K} `{EqDecision K} n (items : list K) k m :
  (k, m) ∈ Counter.most_common n (Counter.of_list items) →
  k ∈ items ∧ m = Counter.occurrences k items.
Proof.
  unfold Counter.most_common. intros (i & Hi & _)%elem_of_take.
  apply list_elem_of_lookup_2 in Hi. rewrite insertion_sort_perm in Hi.
  by apply elem_of_of_list.
Qed.

(** However the texts are cut into words at their blanks, the trending
    list is made from the words that do not begin with http: it has as many
    entries as there are different such words, ten at most, never lists a
    word that begins with http, gives each listed word the number of times
    it occurs among them (once at least), and is empty only when every word
    of the texts begins with http. *)
Theorem trending_words_bounds (texts : list string) (toks : list (list string)) :
  Forall2 tokenized texts toks →
  let kept := filter (λ w, ¬ begins_with "http" w) (concat toks) in
  words texts = kept ∧
  (length (trending_words texts) ≤ 10)%nat ∧
  length (trending_words texts) = 10 `min` length (Counter.nub kept) ∧
  (∀ w m, (w, m) ∈ trending_words texts →
          w ∈ concat toks ∧ ¬ begins_with "http" w ∧
          m = Counter.occurrences w kept ∧ (1 ≤ m)%nat) ∧
  (trending_words texts = [] ↔ ∀ w, w ∈ concat toks → begins_with "http" w).
Proof.
  intros Htoks kept.
  assert (Hkept : words texts = kept) by (by apply words_of_tokens).
  split; [done |].
  unfold trending_words, Counter.most_common. rewrite Hkept. split_and!.
  - rewrite length_take. lia.
  - rewrite length_take. f_equal.
    rewrite (Permutation_length (insertion_sort_perm _ _)).
    by rewrite <- (of_list_keys kept), length_fmap.
  - intros w m [Hw ->]%most_common_elem.
    assert (Hin : w ∈ kept) by done.
    apply list_elem_of_filter in Hin as [Hh Hc].
    split_and!; [done | done | done | by apply occurrences_present].
  - set (sorted := insertion_sort _ _).
    assert (Hperm : sorted ≡ₚ Counter.of_list kept) by apply insertion_sort_perm.
    assert (Hnil : take 10 sorted = [] ↔ kept = []).
    { split.
      - intros Hnil. destruct sorted as [|x sorted]; [| done].
        apply Permutation_nil_l in Hperm.
        rewrite of_list_tabulated in Hperm.
        by destruct kept.
      - intros Hnil. rewrite Hnil in Hperm. apply Permutation_nil_r in Hperm.
        by rewrite Hperm. }
    rewrite Hnil. unfold kept. split.
    + intros Hall w Hw.
      destruct (decide (begins_with "http" w)) as [? | Hno]; [done |].
      assert (Hin : w ∈ filter (λ w, ¬ begins_with "http" w) (concat toks))
        by (by apply list_elem_of_filter).
      rewrite Hall in Hin. by apply elem_of_nil in Hin.
    + intros Hall. apply filter_none. intros w Hw Hno. by apply Hno, Hall.
Qed.

(** A label that no record carries has no entry in [counts], and reading
    it with default 0 gives 0; a label some record carries has an entry. *)
Theorem counts_missing_label (df : list scored) (l : sentiment) :
  (l ∈ (counts df).*1 ↔ ∃ r, r ∈ df ∧ Sentiment r = l) ∧
  (Counter.get (counts df) l 0 = 0 ↔ ¬ ∃ r, r ∈ df ∧ Sentiment r = l).
Proof.
  assert (Hin : l ∈ Sentiment <$> df ↔ ∃ r, r ∈ df ∧ Sentiment r = l).
  { rewrite list_elem_of_fmap. split.
    - intros (r & -> & Hr). by exists r.
    - intros (r & Hr & <-). by exists r. }
  split.
  - unfold counts, value_counts. by rewrite of_list_keys, elem_of_nub.
  - rewrite <- Hin. unfold counts, value_counts. rewrite get_of_list. split.
    + intros H0 Hl%(occurrences_present l). lia.
    + apply occurrences_absent.
Qed.

End insight_facts.

Lemma trending_words_bounds_witness :
  Forall2 Text.tokenized ["see http://t.co/x now"; " now  https"]
    [["see"; "http://t.co/x"; "now"]; ["now"; "https"]] ∧
  trending_words ["see http://t.co/x now"; " now  https"] = [("now", 2); ("see", 1)] ∧
  length (trending_words ["see http://t.co/x now"; " now  https"]) =
    10 `min` length (Counter.nub ["see"; "now"; "now"]).
Proof.
  assert (Htoks : Forall2 Text.tokenized ["see http://t.co/x now"; " now  https"]
                    [["see"; "http://t.co/x"; "now"]; ["now"; "https"]])
    by apply (split_all_tokenized ["see http://t.co/x now"; " now  https"]).
  destruct (trending_words_bounds _ _ Htoks) as (_ & _ & Hlen & _).
  split_and!; [exact Htoks | reflexivity | exact Hlen].
Defined.

Section progress_facts.
Context `{SortKind} `{Engine} (polarity : string → Q).

(** From a session that satisfies the invariant, an execution of the script
    with a keyword of the pattern fragment gets through: no frame is read
    that is not there or lacks a column, and the page is either hidden (no
    stored result yet) or drawn from the stored result. *)
Theorem script_gets_through now c w p :
  session_invariant w →
  Re.compile (keyword c) = Some p →
  ∃ w' out shown df,
    script polarity now c w = Some (w', out, shown) ∧
    session_invariant w' ∧
    result w' = Some df ∧
    shown = (if decide (df = []) then None else Some (summarize df)).
Proof.
  intros Hinv Hp.
  assert (∃ w1 n1, add_tweet now c w = Some (w1, n1)) as (w1 & n1 & Hadd).
  { destruct Hinv as (rows & _ & Hrows & _).
    destruct (add_clicked c) eqn:Hclick;
      [| rewrite add_tweet_not_clicked by done; eauto].
    destruct (decide (custom_tweet c = EmptyString)) as [Heq | Hneq];
      [rewrite add_tweet_empty by done; eauto |].
    destruct (add_tweet_nonempty now c w rows Hrows Hclick Hneq) as (w1 & ? & -> & _).
    eauto. }
  pose proof (add_tweet_invariant now c w w1 n1 Hinv Hadd) as Hinv1.
  assert (∃ w2 n2, run_analysis polarity c w1 = Some (w2, n2)) as (w2 & n2 & Hrun).
  { destruct Hinv1 as (rows & _ & Hrows & _).
    destruct (re_fragment _ _ Hp) as (q & Hq & _).
    by apply (run_analysis_total polarity c w1 rows q). }
  pose proof (run_analysis_invariant polarity c w1 w2 n2 Hinv1 Hrun) as Hinv2.
  destruct Hinv2 as (rows & df & Hrows & Hdf & Hrest).
  exists w2, (n1 ++ n2), (if decide (df = []) then None else Some (summarize df)), df.
  split_and!; [| by exists rows, df | done | done].
  unfold script. rewrite Hadd. cbn [mbind option_bind]. rewrite Hrun.
  cbn [mbind option_bind].
  destruct (decide (df = [])) as [-> | Hne].
  - apply result_Some in Hdf. unfold main_content. by rewrite Hdf.
  - by rewrite (main_content_shows w2 df Hdf Hne).
Qed.

End progress_facts.

Lemma script_gets_through_witness :
  ∃ w' out shown df,
    @script stable_kind fragment_engine Samples.stub_polarity 7 Samples.run_zzz Samples.late_first_world
      = Some (w', out, shown) ∧
    session_invariant w' ∧ result w' = Some df.
Proof.
  destruct (@script_gets_through stable_kind fragment_engine Samples.stub_polarity 7 Samples.run_zzz
              Samples.late_first_world
              (fmap (M := list) Re.Lit (list_ascii_of_string "zzz-no-match")))
    as (w' & out & shown & df & Hs & Hinv & Hdf & _);
    [apply initial_invariant, late_first_labelled | reflexivity |].
  by exists w', out, shown, df.
Defined.

(** ** Running again with another threshold *)
Section rerun_facts.
Context `{SortKind} `{Engine} (polarity : string → Q).

Lemma run_result_perm c w w' :
  run_clicked c || auto_refresh c = true →
  run_analysis polarity c w = Some (w', []) →
  ∃ rows sel df,
    corpus w = Some rows ∧
    keyword_filter rows (keyword c) (tweet_count c) = Some sel ∧
    result w' = Some df ∧
    df ≡ₚ with_columns polarity (sentiment_threshold c) <$> sel.
Proof.
  intros Htrig
    [(Hno & _) | (rows & sel & df & _ & Hrows & Hsel & _ & Hcase)]%run_analysis_cases;
    [congruence |].
  destruct Hcase as [(_ & _ & ?) | (_ & df' & _ & _ & -> & _)]; [done |].
  eexists rows, sel, _. split_and!; [done | done | | apply sort_values_perm].
  apply result_Some. apply lookup_insert_eq.
Qed.

(** Two runs that differ in the threshold only store the same records with
    the same polarities and times: the threshold decides the labels and
    nothing else. *)
Theorem rerun_changes_labels_only c1 c2 w1 w1' w2 w2' df1 df2 :
  keyword c1 = keyword c2 → tweet_count c1 = tweet_count c2 →
  corpus w1 = corpus w2 →
  run_clicked c1 || auto_refresh c1 = true →
  run_clicked c2 || auto_refresh c2 = true →
  run_analysis polarity c1 w1 = Some (w1', []) →
  run_analysis polarity c2 w2 = Some (w2', []) →
  result w1' = Some df1 → result w2' = Some df2 →
  (λ r, (origin r, Polarity r, Time r)) <$> df1 ≡ₚ
  (λ r, (origin r, Polarity r, Time r)) <$> df2.
Proof.
  intros Hkw Hn Hcorpus Ht1 Ht2 Hrun1 Hrun2 Hdf1 Hdf2.
  destruct (run_result_perm c1 w1 w1' Ht1 Hrun1)
    as (rows1 & sel1 & l1 & Hr1 & Hs1 & Hl1 & Hp1).
  destruct (run_result_perm c2 w2 w2' Ht2 Hrun2)
    as (rows2 & sel2 & l2 & Hr2 & Hs2 & Hl2 & Hp2).
  assert (l1 = df1) as -> by congruence.
  assert (l2 = df2) as -> by congruence.
  assert (rows1 = rows2) as -> by congruence.
  rewrite Hkw, Hn, Hs2 in Hs1. injection Hs1 as <-.
  rewrite Hp1, Hp2, <- !list_fmap_compose.
  erewrite list_fmap_ext; [reflexivity |]. by intros.
Qed.

End rerun_facts.

Definition after_run_bar_strict : world :=
  Eval vm_compute in
    @after_run stable_kind alternation_engine Samples.stub_polarity run_bar_strict
      after_run_bar.

Lemma run_bar_strict_succeeds :
  @run_analysis stable_kind alternation_engine Samples.stub_polarity run_bar_strict
    after_run_bar = Some (after_run_bar_strict, []).
Proof. by vm_compute. Qed.

Lemma rerun_changes_labels_only_witness :
  @run_analysis stable_kind alternation_engine Samples.stub_polarity Samples.run_bar
    Samples.late_first_world = Some (after_run_bar, []) ∧
  @run_analysis stable_kind alternation_engine Samples.stub_polarity run_bar_strict
    after_run_bar = Some (after_run_bar_strict, []) ∧
  Sentiment <$> default [] (result after_run_bar) = [Positive; Neutral] ∧
  Sentiment <$> default [] (result after_run_bar_strict) = [Neutral; Neutral] ∧
  (λ r, (origin r, Polarity r, Time r)) <$> default [] (result after_run_bar) ≡ₚ
  (λ r, (origin r, Polarity r, Time r)) <$> default [] (result after_run_bar_strict).
Proof.
  split_and!; [exact run_bar_succeeds | exact run_bar_strict_succeeds | done | done |].
  apply (@rerun_changes_labels_only stable_kind alternation_engine Samples.stub_polarity
           Samples.run_bar run_bar_strict Samples.late_first_world after_run_bar
           after_run_bar after_run_bar_strict);
    [reflexivity | reflexivity | reflexivity | reflexivity | reflexivity
    | exact run_bar_succeeds | exact run_bar_strict_succeeds
    | reflexivity | reflexivity].
Defined.
